(** * Cyber-network attack simulation: allocation and the degree/degree trial

    A shallow embedding of [network_generation.py] and
    [strategy_simulation.py].

    - [Node] objects live in a heap indexed by reference; a list of nodes
      (the ranking, the attack queue, [graph.nodes]) is a list of
      references, so a write through one list is seen through the others,
      as with the shared Python objects.
    - The defense budget is a Python int ([Z], it feeds [range]); the
      attack budget is a number and the ledger of a trial turns fractional
      after the first [-= 0.5]: both are rationals ([Q]), an int budget
      [b] being [inject_Z b].  Centrality scores and the values of
      [random.random()] are rationals too, and the decimal literals of
      the source ([0.05], [0.7], ...) are the rationals they denote.
      [Binary64] runs [math.ceil(0.05 * b)] in double precision, as the
      code does; on every int budget from 0 to [2^53 - 1] it returns the
      value of this exact reading, and beyond 53 bits it does not.
    - [random.random()] is a stream [random : nat -> Q]; the state counts
      the calls made so far.
    - Python exceptions are the [Raise] results of [result]. *)

From Stdlib Require Import String.
From Stdlib Require Import List ZArith QArith Qround Bool Lia Lqa Arith.
From Stdlib Require Import PrimFloat FloatOps SpecFloat Uint63 FloatAxioms.
From Stdlib Require Import Permutation.
Import ListNotations.

Set Implicit Arguments.

(** ** Results and exceptions *)

Inductive exn : Type :=
| IndexError
| ZeroDivisionError.

Inductive result (A : Type) : Type :=
| Ok (a : A)
| Raise (e : exn).

Arguments Ok {A} a.
Arguments Raise {A} e.

Definition bind {A B : Type} (r : result A) (k : A -> result B) : result B :=
  match r with
  | Ok a => k a
  | Raise e => Raise e
  end.

Notation "x <- r ;; k" := (bind r (fun x => k))
  (at level 61, r at next level, right associativity).

(** ** Numbers *)

(** [x < y] on rationals, as a boolean. *)
Definition Qltb (x y : Q) : bool := negb (Qle_bool y x).

(** [range(n)]: empty for [n <= 0]. *)
Definition range (n : Z) : list nat := seq 0 (Z.to_nat n).

(** ** network_generation.py *)

Module NetGen.

(** A reference to a [Node] object. *)
Definition ref := nat.

(** [class Node].  [centrality_value] is [None] after [__init__]; every
    graph that reaches the functions below went through
    [assign_centralities], so the field holds its score. *)
Record Node : Type := mkNode {
  name : nat;
  defense_value : Z;
  attack_value : Z;
  centrality_value : Q;
  is_attacked : bool;
  is_compromised : bool
}.

(** [Node(name)] followed by [set_centrality_value(c)]. *)
Definition new_node (nm : nat) (c : Q) : Node :=
  {| name := nm; defense_value := 0; attack_value := 0;
     centrality_value := c; is_attacked := false; is_compromised := false |}.

Definition set_defense_value (v : Z) (x : Node) : Node :=
  {| name := name x; defense_value := v; attack_value := attack_value x;
     centrality_value := centrality_value x; is_attacked := is_attacked x;
     is_compromised := is_compromised x |}.

Definition set_attack_value (v : Z) (x : Node) : Node :=
  {| name := name x; defense_value := defense_value x; attack_value := v;
     centrality_value := centrality_value x; is_attacked := is_attacked x;
     is_compromised := is_compromised x |}.

Definition set_is_attacked (b : bool) (x : Node) : Node :=
  {| name := name x; defense_value := defense_value x;
     attack_value := attack_value x; centrality_value := centrality_value x;
     is_attacked := b; is_compromised := is_compromised x |}.

Definition set_is_compromised (b : bool) (x : Node) : Node :=
  {| name := name x; defense_value := defense_value x;
     attack_value := attack_value x; centrality_value := centrality_value x;
     is_attacked := is_attacked x; is_compromised := b |}.

(** The heap of [Node] objects. *)
Definition heap := ref -> Node.

Definition update (h : heap) (r : ref) (f : Node -> Node) : heap :=
  fun r' => if Nat.eqb r' r then f (h r) else h r'.

(** A NetworkX graph whose nodes are [Node] objects: [graph.nodes] in
    iteration order, [graph.neighbors], and the attribute dictionary the
    graph itself keeps for each node ([graph.nodes[n]]), which is not the
    [Node] object's fields. *)
Record Graph : Type := mkGraph {
  nodes : list ref;
  neighbors : ref -> list ref;
  node_attrs : ref -> list (string * bool)
}.

(** What [generate_graph] returns: [erdos_renyi_graph] puts no attribute on
    a node and [relabel_nodes] copies the (empty) dictionaries. *)
Definition generated (g : Graph) : Prop :=
  forall r, node_attrs g r = [].

Definition number_of_nodes (g : Graph) : nat := length (nodes g).

(** [sorted(xs, key=lambda node: node.centrality_value, reverse=True)]: a
    stable sort, largest key first, equal keys in their original order. *)
Section Sorted.
Variable h : heap.

Definition key (r : ref) : Q := centrality_value (h r).

Fixpoint insert_desc (x : ref) (l : list ref) : list ref :=
  match l with
  | [] => [x]
  | y :: l' =>
      if Qltb (key x) (key y) then y :: insert_desc x l' else x :: l
  end.

Definition sorted_desc (l : list ref) : list ref :=
  fold_right insert_desc [] l.

End Sorted.

Definition sort_by_centrality (g : Graph) (h : heap) : list ref :=
  let sorted_nodes := sorted_desc h (nodes g) in
  sorted_nodes.

(** [for i in range(n): body(sorted_nodes[i])]; an index past the end of
    the list raises [IndexError]. *)
Fixpoint for_index (l : list ref) (body : ref -> heap -> heap)
    (idx : list nat) (h : heap) : result heap :=
  match idx with
  | [] => Ok h
  | i :: idx' =>
      match nth_error l i with
      | Some r => for_index l body idx' (body r h)
      | None => Raise IndexError
      end
  end.

Definition assign_defense_values (sorted_nodes : list ref)
    (defense_budget : Z) (h : heap) : result heap :=
  let defense_budget :=
    if (Z.of_nat (length sorted_nodes) <? defense_budget)%Z
    then Z.of_nat (length sorted_nodes) else defense_budget in
  for_index sorted_nodes
    (fun r h => update h r (set_defense_value 1))
    (range defense_budget) h.

(** [math.ceil(0.05 * attack_budget)], read in exact arithmetic: the least
    integer that is at least a twentieth of the budget.  The code computes
    the product in binary64; [Binary64.calc_direct_attack_budget] below is
    that computation, and on every int budget from 0 to [2^53 - 1] it
    returns this value ([calc_direct_attack_budget_binary64_agrees]).
    Beyond 53 bits the two part
    ([calc_direct_attack_budget_not_ceiling]), and an int too large for a
    double makes the code raise [OverflowError]: what is stated below of
    the value of this function is a statement about the code for int
    budgets in that range. *)
Definition calc_direct_attack_budget (attack_budget : Q) : Z :=
  let direct_attack_budget := Qceiling ((5 # 100) * attack_budget) in
  direct_attack_budget.

Definition assign_attack_values (sorted_nodes : list ref)
    (attack_budget : Q) (h : heap) : result heap :=
  let direct_attack_budget := calc_direct_attack_budget attack_budget in
  for_index sorted_nodes
    (fun r h =>
       let h := update h r (set_attack_value 1) in
       update h r (set_is_attacked true))
    (range direct_attack_budget) h.

End NetGen.

(** ** [math.ceil(0.05 * b)] in binary64

    Python computes the product in double precision.  This module runs
    that computation on an int budget [0 <= b < 2^63], for comparison
    with the exact [NetGen.calc_direct_attack_budget]. *)

Module Binary64.

(** The literal [0.05]: the double nearest to 1/20. *)
Definition literal_0_05 : float := 0x1.999999999999ap-5%float.

(** [float(n)] for an int [0 <= n < 2^63]: the nearest double, ties to
    even, as the conversion of Python rounds; exact below [2^53]. *)
Definition float_of_int (n : Z) : float :=
  PrimFloat.of_uint63 (Uint63.of_Z n).

(** [math.ceil(x)]: an int; [None] where Python raises (infinities and
    NaN). *)
Definition math_ceil (x : float) : option Z :=
  match Prim2SF x with
  | S754_zero _ => Some 0%Z
  | S754_finite negative m e =>
      let magnitude_up :=
        if (0 <=? e)%Z then (Z.pos m * 2 ^ e)%Z
        else (- ((- Z.pos m) / 2 ^ (- e)))%Z in
      let magnitude_down :=
        if (0 <=? e)%Z then (Z.pos m * 2 ^ e)%Z
        else (Z.pos m / 2 ^ (- e))%Z in
      Some (if negative then (- magnitude_down)%Z else magnitude_up)
  | _ => None
  end.

Definition calc_direct_attack_budget (attack_budget : Z) : option Z :=
  math_ceil (PrimFloat.mul literal_0_05 (float_of_int attack_budget)).

(** The double-precision result is the exact one. *)
Definition agrees (attack_budget : Z) : bool :=
  match calc_direct_attack_budget attack_budget with
  | Some k =>
      (k =? NetGen.calc_direct_attack_budget (inject_Z attack_budget))%Z
  | None => false
  end.

End Binary64.

(** ** strategy_simulation.py *)

Module Sim.
Import NetGen.

(** The body of the loop of [generate_initial_networks], for one graph. *)
Definition generate_initial_network (g : Graph) (defense_budget : Z)
    (attack_budget : Q) (h : heap) : result heap :=
  let sorted_nodes := sort_by_centrality g h in
  h <- assign_defense_values sorted_nodes defense_budget h ;;
  assign_attack_values sorted_nodes attack_budget h.

(** [nx.get_node_attributes(graph, name)]: the dictionary
    [{n: d[name] for n, d in graph.nodes.items() if name in d}], read from
    the graph's own attribute dictionaries. *)
Fixpoint lookup_attr (name : string) (d : list (string * bool))
    : option bool :=
  match d with
  | [] => None
  | (k, v) :: d' => if String.eqb k name then Some v else lookup_attr name d'
  end.

Fixpoint get_node_attributes_from (g : Graph) (name : string)
    (ns : list ref) : list (ref * bool) :=
  match ns with
  | [] => []
  | n :: ns' =>
      match lookup_attr name (node_attrs g n) with
      | Some v => (n, v) :: get_node_attributes_from g name ns'
      | None => get_node_attributes_from g name ns'
      end
  end.

Definition get_node_attributes (g : Graph) (name : string)
    : list (ref * bool) :=
  get_node_attributes_from g name (nodes g).

(** [all(xs)] *)
Definition all (xs : list bool) : bool := forallb (fun b => b) xs.

(** The function takes the graph and the ledger and no [Node] object is
    read: the dictionary comes from [get_node_attributes]. *)
Definition check_trial_conditions (g : Graph) (attack_budget : Q) : bool :=
  let network_not_compromised :=
    all (map snd (get_node_attributes g "is_compromised")) in
  let has_attack_budget := Qltb 0 attack_budget in
  has_attack_budget && network_not_compromised.

Section Trial.

(** The values [random.random()] returns, in the order of the calls. *)
Variable random : nat -> Q.

(** The mutable state outside the local variables: the [Node] objects and
    the number of calls to [random.random()] made so far. *)
Record State : Type := mkState {
  objs : heap;
  calls : nat
}.

(** [node.is_compromised = random.random() < p] *)
Definition resolve (node : ref) (p : Q) (s : State) : State :=
  let r := random (calls s) in
  {| objs := update (objs s) node (set_is_compromised (Qltb r p));
     calls := S (calls s) |}.

(** The body of the loop of [deg_deg_initial_attack] (direct attack). *)
Definition direct_attack (s : State) (node : ref) : State :=
  if (defense_value (objs s node) =? 1)%Z
  then resolve node (7 # 10) s
  else resolve node (9 # 10) s.

Definition deg_deg_initial_attack (g : Graph) (attack_budget : Q)
    (s : State) : (list ref * Q) * State :=
  let attack_budget :=
    attack_budget - inject_Z (calc_direct_attack_budget attack_budget) in
  let attacked_nodes :=
    filter (fun node => is_attacked (objs s node)) (nodes g) in
  let sorted_attacked_nodes := sorted_desc (objs s) attacked_nodes in
  let s := fold_left direct_attack attacked_nodes s in
  ((sorted_attacked_nodes, attack_budget), s).

(** The local variables and the state of [deg_deg_trial] during its
    [while] loop. *)
Record Trial : Type := mkTrial {
  state : State;
  attack_budget : Q;
  targets : list ref
}.

(** The chain of [if]/[elif] of the indirect attack. *)
Definition indirect_resolve (current_node target : ref) (s : State)
    : State :=
  let tdv := defense_value (objs s target) in
  let cdv := defense_value (objs s current_node) in
  if (tdv =? 1)%Z && (cdv =? 0)%Z then resolve target (5 # 10) s
  else if (tdv =? 0)%Z && (cdv =? 1)%Z then resolve target (75 # 100) s
  else if (tdv =? 1)%Z && (cdv =? 1)%Z then resolve target (25 # 100) s
  else if (tdv =? 0)%Z && (cdv =? 0)%Z then resolve target (9 # 10) s
  else s.

(** The body of [for target in next_targets]. *)
Definition attack_target (g : Graph) (current_node : ref) (t : Trial)
    (target : ref) : Trial :=
  if check_trial_conditions g (attack_budget t)
     && negb (is_attacked (objs (state t) target))
  then
    let s := {| objs := update (objs (state t)) target (set_is_attacked true);
                calls := calls (state t) |} in
    let targets := targets t ++ [target] in
    let attack_budget := attack_budget t - (5 # 10) in
    {| state := indirect_resolve current_node target s;
       attack_budget := attack_budget;
       targets := targets |}
  else t.

(** [targets.pop()]: the last element, and the list without it. *)
Definition pop (l : list ref) : option (ref * list ref) :=
  match rev l with
  | [] => None
  | x :: r => Some (x, rev r)
  end.

(** One pass through the body of the [while] loop, the popped node given. *)
Definition spread (g : Graph) (current_node : ref) (t : Trial) : Trial :=
  if is_compromised (objs (state t) current_node) then
    let connected_nodes := neighbors g current_node in
    let next_targets := sorted_desc (objs (state t)) connected_nodes in
    fold_left (attack_target g current_node) next_targets t
  else t.

(** The [while] loop; [None] when [fuel] passes do not reach its exit. *)
Fixpoint trial_loop (fuel : nat) (g : Graph) (t : Trial) : option Trial :=
  if check_trial_conditions g (attack_budget t)
     && (0 <? length (targets t))%nat
  then
    match fuel with
    | O => None
    | S fuel' =>
        match pop (targets t) with
        | Some (current_node, rest) =>
            let t := {| state := state t; attack_budget := attack_budget t;
                        targets := rest |} in
            trial_loop fuel' g (spread g current_node t)
        | None => None
        end
    end
  else Some t.

(** [sum(1 for node in graph.nodes if node.is_compromised)] *)
Definition num_compromised (g : Graph) (h : heap) : nat :=
  length (filter (fun node => is_compromised (h node)) (nodes g)).

(** The last two statements of [deg_deg_trial]. *)
Definition frac_compromised (g : Graph) (h : heap) : result Q :=
  match number_of_nodes g with
  | O => Raise ZeroDivisionError
  | S n => Ok (Z.of_nat (num_compromised g h) # Pos.of_succ_nat n)
  end.

Definition deg_deg_trial (fuel : nat) (g : Graph) (attack_budget : Q)
    (s : State) : option (result Q * State) :=
  let '((targets, attack_budget), s) :=
    deg_deg_initial_attack g attack_budget s in
  match trial_loop fuel g
          {| state := s; attack_budget := attack_budget;
             targets := targets |} with
  | Some t => Some (frac_compromised g (objs (state t)), state t)
  | None => None
  end.

(** *** The steps of a trial

    The same functions, keeping every intermediate state: a [Step] is one
    executed statement group of the source with the local variables and
    the state before and after it. *)

Inductive Event : Type :=
| Deduct                                    (* line 85 (and 86-87) *)
| Direct (node : ref)                       (* lines 90-93 *)
| Popped (current_node : ref)               (* line 129 *)
| Indirect (current_node target : ref).     (* lines 135-146 *)

Record Step : Type := mkStep {
  event : Event;
  before : Trial;
  after : Trial
}.

(** The state a list of steps ends in, started from [t]. *)
Definition final (t : Trial) (tr : list Step) : Trial :=
  last (map after tr) t.

Definition direct_attack_in (t : Trial) (node : ref) : Trial :=
  {| state := direct_attack (state t) node;
     attack_budget := attack_budget t; targets := targets t |}.

Fixpoint direct_trace (attacked_nodes : list ref) (t : Trial)
    : list Step :=
  match attacked_nodes with
  | [] => []
  | node :: l =>
      let t' := direct_attack_in t node in
      mkStep (Direct node) t t' :: direct_trace l t'
  end.

Fixpoint spread_steps (g : Graph) (current_node : ref)
    (next_targets : list ref) (t : Trial) : list Step :=
  match next_targets with
  | [] => []
  | target :: l =>
      let t' := attack_target g current_node t target in
      if check_trial_conditions g (attack_budget t)
         && negb (is_attacked (objs (state t) target))
      then mkStep (Indirect current_node target) t t'
             :: spread_steps g current_node l t'
      else spread_steps g current_node l t'
  end.

Definition spread_trace (g : Graph) (current_node : ref) (t : Trial)
    : list Step :=
  if is_compromised (objs (state t) current_node) then
    spread_steps g current_node
      (sorted_desc (objs (state t)) (neighbors g current_node)) t
  else [].

Fixpoint loop_trace (fuel : nat) (g : Graph) (t : Trial)
    : option (list Step) :=
  if check_trial_conditions g (attack_budget t)
     && (0 <? length (targets t))%nat
  then
    match fuel with
    | O => None
    | S fuel' =>
        match pop (targets t) with
        | Some (current_node, rest) =>
            let t1 := {| state := state t; attack_budget := attack_budget t;
                         targets := rest |} in
            let tr := spread_trace g current_node t1 in
            match loop_trace fuel' g (final t1 tr) with
            | Some tr' => Some (mkStep (Popped current_node) t t1 :: tr ++ tr')
            | None => None
            end
        | None => None
        end
    end
  else Some [].

(** The trial enters with its arguments and no queue yet. *)
Definition entry (attack_budget : Q) (s : State) : Trial :=
  {| state := s; attack_budget := attack_budget; targets := [] |}.

Definition trial_trace (fuel : nat) (g : Graph) (attack_budget : Q)
    (s : State) : option (list Step) :=
  let attacked_nodes :=
    filter (fun node => is_attacked (objs s node)) (nodes g) in
  let t1 :=
    {| state := s;
       attack_budget :=
         attack_budget - inject_Z (calc_direct_attack_budget attack_budget);
       targets := sorted_desc (objs s) attacked_nodes |} in
  let d := direct_trace attacked_nodes t1 in
  match loop_trace fuel g (final t1 d) with
  | Some tr => Some (mkStep Deduct (entry attack_budget s) t1 :: d ++ tr)
  | None => None
  end.

(** Every state a trial goes through, in order. *)
Definition states (t : Trial) (tr : list Step) : list Trial :=
  t :: map after tr.

(** Passes of the [while] loop that are always enough: one per queued node
    and one per half unit of budget left. *)
Definition enough_fuel (t : Trial) : nat :=
  (length (targets t) + Z.to_nat (Qceiling (2 * attack_budget t)))%nat.

End Trial.
End Sim.

(** ** The specification's own words, for comparison with the code *)

Module Spec.
Import NetGen.

(** "(a) the ledger still holds positive budget, and (b) at least one node
    in the topology remains not-yet-compromised" *)
Definition continuation (g : Graph) (h : heap) (ledger : Q) : bool :=
  Qltb 0 ledger
  && existsb (fun node => negb (is_compromised (h node))) (nodes g).



End Spec.

(** ** Predicates of the statements *)

Module Props.
Import NetGen.

(** A list is ranked when centrality never increases along it. *)
Definition ranked (h : heap) (l : list ref) : Prop :=
  forall i j x y,
    (i <= j)%nat -> nth_error l i = Some x -> nth_error l j = Some y ->
    (key h y <= key h x)%Q.

(** The nodes of a list that hold a defense unit. *)
Definition defended (h : heap) (l : list ref) : list ref :=
  filter (fun r => (defense_value (h r) =? 1)%Z) l.

(** A call is rejected when it raises. *)
Definition rejects (A : Type) (r : result A) : Prop :=
  exists e, r = Raise e.

End Props.
Import Props.

(** ** Predicates on trials *)

Module TrialProps.
Import NetGen Sim.

(** [graph.nodes] lists each node once and every neighbor is a node. *)
Definition well_formed (g : Graph) : Prop :=
  NoDup (nodes g) /\ forall r n, In n (neighbors g r) -> In n (nodes g).

(** No object is compromised: the heap of a trial that has not begun. *)
Definition uncompromised (h : heap) : Prop :=
  forall r, is_compromised (h r) = false.


(** Each step starts where the one before it ended. *)
Fixpoint chained (t : Trial) (tr : list Step) : Prop :=
  match tr with
  | [] => True
  | st :: tr' => before st = t /\ chained (after st) tr'
  end.



(** No flag of any node goes back from [True] to [False]. *)
Definition no_retreat (t t' : Trial) : Prop :=
  forall r,
    (is_attacked (objs (state t) r) = true ->
     is_attacked (objs (state t') r) = true)
    /\ (is_compromised (objs (state t) r) = true ->
        is_compromised (objs (state t') r) = true).

(** Compromised nodes have been attacked. *)
Definition footholds_attacked (t : Trial) : Prop :=
  forall r, is_compromised (objs (state t) r) = true ->
            is_attacked (objs (state t) r) = true.

(** The continuation predicate fails, as the code computes it or as the
    specification words it. *)
Definition stopped (g : Graph) (t : Trial) : Prop :=
  check_trial_conditions g (attack_budget t) = false
  \/ Spec.continuation g (objs (state t)) (attack_budget t) = false.

(** The ledger is a non-negative number of half units. *)
Definition half_units (t : Trial) : Prop :=
  exists k : Z, (0 <= k)%Z /\ (attack_budget t == inject_Z k * (1 # 2))%Q.

(** A step at which flag [f] of node [r] goes from [False] to [True], and
    one at which it goes back. *)
Definition rises (f : Node -> bool) (r : ref) (st : Step) : bool :=
  negb (f (objs (state (before st)) r)) && f (objs (state (after st)) r).

Definition falls (f : Node -> bool) (r : ref) (st : Step) : bool :=
  f (objs (state (before st)) r) && negb (f (objs (state (after st)) r)).



Section Steps.
Variable random : nat -> Q.

(** What a step of each kind does, and in which state it is taken. *)
Definition step_ok (g : Graph) (st : Step) : Prop :=
  let t := before st in
  let t' := after st in
  match event st with
  | Deduct =>
      state t' = state t
      /\ attack_budget t'
         = attack_budget t
           - inject_Z (calc_direct_attack_budget (attack_budget t))
  | Direct node =>
      In node (nodes g)
      /\ is_attacked (objs (state t) node) = true
      /\ is_compromised (objs (state t) node) = false
      /\ t' = direct_attack_in random t node
  | Popped current_node =>
      check_trial_conditions g (attack_budget t) = true
      /\ pop (targets t) = Some (current_node, targets t')
      /\ state t' = state t
      /\ attack_budget t' = attack_budget t
  | Indirect current_node target =>
      check_trial_conditions g (attack_budget t) = true
      /\ In target (neighbors g current_node)
      /\ is_compromised (objs (state t) current_node) = true
      /\ is_attacked (objs (state t) target) = false
      /\ is_compromised (objs (state t) target) = false
      /\ t' = attack_target random g current_node t target
  end.


End Steps.
End TrialProps.
Import TrialProps.

(** ** Small networks to run the code on *)

Module Examples.
Import NetGen.

(** Fresh [Node] objects with centrality scores [c]. *)
Definition fresh (c : ref -> Q) : heap := fun r => new_node r (c r).

(** A single node; [degree_centrality] gives it 1. *)
Definition one_node : Graph :=
  {| nodes := [0%nat]; neighbors := fun _ => [];
     node_attrs := fun _ => [] |}.

Definition one_node_heap : heap := fresh (fun _ => 1).

(** The path 0 - 1 - 2 and its degree centralities 1/2, 1, 1/2. *)
Definition path3 : Graph :=
  {| nodes := [0; 1; 2]%nat;
     neighbors := fun r =>
       match r with
       | 0%nat => [1%nat]
       | 1%nat => [0; 2]%nat
       | 2%nat => [1%nat]
       | _ => []
       end;
     node_attrs := fun _ => [] |}.

Definition path3_heap : heap :=
  fresh (fun r => match r with 1%nat => 1 | _ => 1 # 2 end).

(** A stream of draws under every threshold, and one over every
    threshold. *)
Definition always_hit : nat -> Q := fun _ => 0.
Definition never_hit : nat -> Q := fun _ => 99 # 100.

(** Every object compromised. *)
Definition fallen : heap :=
  fun r => set_is_compromised true (set_is_attacked true (new_node r 1)).

(** A network after [generate_initial_networks]; the heap as it was when
    allocation raises. *)
Definition allocated (g : Graph) (defense_budget : Z) (attack_budget : Q)
    (h : heap) : heap :=
  match Sim.generate_initial_network g defense_budget attack_budget h with
  | Ok h' => h'
  | Raise _ => h
  end.

(** The steps of a trial that ends within [fuel] passes. *)
Definition steps_of (random : nat -> Q) (fuel : nat) (g : Graph) (b : Q)
    (s : Sim.State) : list Sim.Step :=
  match Sim.trial_trace random fuel g b s with
  | Some tr => tr
  | None => []
  end.

(** The path with budgets (2, 40): nodes 1 and 0 defended and attacked. *)
Definition path3_start : Sim.State :=
  {| Sim.objs := allocated path3 2 40 path3_heap; Sim.calls := 0 |}.

Definition path3_trace : list Sim.Step :=
  steps_of always_hit 100 path3 40 path3_start.

(** The path with budgets (2, 1): the ledger is empty after the direct
    attack on node 1. *)
Definition path3_short_start : Sim.State :=
  {| Sim.objs := allocated path3 2 1 path3_heap; Sim.calls := 0 |}.

Definition path3_short_trace : list Sim.Step :=
  steps_of always_hit 100 path3 1 path3_short_start.

(** The single node with attack budget 1. *)
Definition one_node_start : Sim.State :=
  {| Sim.objs := allocated one_node 0 1 one_node_heap; Sim.calls := 0 |}.


(** The single node with attack budget 20: budget is left after the
    direct attack. *)
Definition one_node_rich_start : Sim.State :=
  {| Sim.objs := allocated one_node 0 20 one_node_heap; Sim.calls := 0 |}.

Definition one_node_rich_trace : list Sim.Step :=
  steps_of always_hit 100 one_node 20 one_node_rich_start.

End Examples.

(** ** The rest of the two files

    [assign_centralities] of [network_generation.py], and the loops
    around the trial in [strategy_simulation.py]:
    [generate_initial_networks], [monte_carlo] and [generate_data].  The
    graph generators call NetworkX's random generator and are not
    modelled. *)

Module Driver.
Import NetGen Sim.

(** [Node.set_centrality_value] *)
Definition set_centrality_value (c : Q) (x : Node) : Node :=
  {| name := name x; defense_value := defense_value x;
     attack_value := attack_value x; centrality_value := c;
     is_attacked := is_attacked x; is_compromised := is_compromised x |}.

(** The result of a dictionary access [d[key]]. *)
Inductive keyed (A : Type) : Type :=
| Value (a : A)
| KeyError.

Arguments Value {A} a.
Arguments KeyError {A}.

(** [centralities[node]] *)
Fixpoint getitem (centralities : list (ref * Q)) (node : ref) : keyed Q :=
  match centralities with
  | [] => KeyError
  | (k, v) :: d => if Nat.eqb k node then Value v else getitem d node
  end.

(** [for node in graph: node.set_centrality_value(centralities[node])] *)
Fixpoint set_centralities (centralities : list (ref * Q)) (ns : list ref)
    (h : heap) : keyed heap :=
  match ns with
  | [] => Value h
  | node :: ns' =>
      match getitem centralities node with
      | Value c =>
          set_centralities centralities ns'
            (update h node (set_centrality_value c))
      | KeyError => KeyError
      end
  end.

Definition assign_centralities (g : Graph)
    (centrality_func : Graph -> list (ref * Q)) (h : heap) : keyed heap :=
  let centralities := centrality_func g in
  set_centralities centralities (nodes g) h.

(** [generate_initial_networks]; the list it returns holds the graphs it
    was given, in the same order. *)
Fixpoint generate_initial_networks (graphs : list Graph)
    (defense_budget : Z) (attack_budget : Q) (h : heap) : result heap :=
  match graphs with
  | [] => Ok h
  | graph :: graphs' =>
      h <- generate_initial_network graph defense_budget attack_budget h ;;
      generate_initial_networks graphs' defense_budget attack_budget h
  end.

(** A [strategy_mapping_func]: one trial, or [None] out of fuel. *)
Definition strategy : Type :=
  Graph -> Q -> State -> option (result Q * State).

Fixpoint monte_carlo (graphs : list Graph)
    (strategy_mapping_func : strategy) (attack_budget : Q) (s : State)
    : option (result (list Q) * State) :=
  match graphs with
  | [] => Some (Ok [], s)
  | graph :: graphs' =>
      match strategy_mapping_func graph attack_budget s with
      | Some (Ok frac_compromised, s) =>
          match monte_carlo graphs' strategy_mapping_func attack_budget s with
          | Some (Ok infiltration_data, s) =>
              Some (Ok (frac_compromised :: infiltration_data), s)
          | Some (Raise e, s) => Some (Raise e, s)
          | None => None
          end
      | Some (Raise e, s) => Some (Raise e, s)
      | None => None
      end
  end.

(** (defense budget, attack budget) *)
Definition budget_mappings : list (Z * Z) :=
  [(60, 60); (60, 100); (45, 100); (25, 100);
   (60, 75); (25, 75); (35, 75); (60, 50)]%Z.

(** A dictionary from budget mappings to infiltration data, in insertion
    order. *)
Definition dict : Type := list ((Z * Z) * list Q).

Definition mapping_eqb (k k' : Z * Z) : bool :=
  (fst k =? fst k')%Z && (snd k =? snd k')%Z.

(** [graph_dict[budget_mapping] = infiltration_data] *)
Fixpoint dict_set (d : dict) (k : Z * Z) (v : list Q) : dict :=
  match d with
  | [] => [(k, v)]
  | (k', v') :: d' =>
      if mapping_eqb k' k then (k', v) :: d' else (k', v') :: dict_set d' k v
  end.

(** The loop over [budget_mappings] for one list of graphs.

    [copy.deepcopy] gives new objects with the fields of the originals,
    and only the copies are written: each pass allocates from the heap
    [h] of the originals, and the heap of its copies is dropped at its
    end.  The calls to [random.random()] go on from pass to pass. *)
Fixpoint generate_data_mappings (standard_networks_n : list Graph)
    (strategy_mapping_func : strategy) (h : heap)
    (mappings : list (Z * Z)) (graph_dict : dict) (calls : nat)
    : option (result dict * nat) :=
  match mappings with
  | [] => Some (Ok graph_dict, calls)
  | budget_mapping :: mappings' =>
      let '(defense_budget, attack_budget) := budget_mapping in
      match generate_initial_networks standard_networks_n defense_budget
              (inject_Z attack_budget) h with
      | Ok h_copy =>
          match monte_carlo standard_networks_n strategy_mapping_func
                  (inject_Z attack_budget)
                  {| objs := h_copy; Sim.calls := calls |} with
          | Some (Ok infiltration_data, s) =>
              generate_data_mappings standard_networks_n
                strategy_mapping_func h mappings'
                (dict_set graph_dict budget_mapping infiltration_data)
                (Sim.calls s)
          | Some (Raise e, s) => Some (Raise e, Sim.calls s)
          | None => None
          end
      | Raise e => Some (Raise e, calls)
      end
  end.

(** [for standard_networks_n, graph_dict in zip(standard_networks,
    graph_dicts)]: the loop stops with the shorter of the two. *)
Fixpoint generate_data_zip (standard_networks : list (list Graph))
    (graph_dicts : list dict) (strategy_mapping_func : strategy)
    (h : heap) (calls : nat) : option (result (list dict) * nat) :=
  match standard_networks, graph_dicts with
  | standard_networks_n :: standard_networks', graph_dict :: graph_dicts' =>
      match generate_data_mappings standard_networks_n
              strategy_mapping_func h budget_mappings graph_dict calls with
      | Some (Ok graph_dict, calls) =>
          match generate_data_zip standard_networks' graph_dicts'
                  strategy_mapping_func h calls with
          | Some (Ok graph_dicts', calls) =>
              Some (Ok (graph_dict :: graph_dicts'), calls)
          | Some (Raise e, calls) => Some (Raise e, calls)
          | None => None
          end
      | Some (Raise e, calls) => Some (Raise e, calls)
      | None => None
      end
  | _, _ => Some (Ok graph_dicts, calls)
  end.

Definition generate_data (standard_networks : list (list Graph))
    (strategy_mapping_func : strategy) (h : heap) (calls : nat)
    : option (result (list dict) * nat) :=
  let graph_dicts := [[]; []; []; []] in
  generate_data_zip standard_networks graph_dicts strategy_mapping_func
    h calls.

End Driver.

(** ** More networks *)

Module MoreExamples.
Import NetGen Sim Driver Examples.

(** A graph without nodes. *)
Definition no_nodes : Graph :=
  {| nodes := []; neighbors := fun _ => [];
     node_attrs := fun _ => [] |}.

(** The cycle 0 - 1 - 2 - 3 - 4 - 0; every degree centrality is 1/2. *)
Definition cycle5 : Graph :=
  {| nodes := [0; 1; 2; 3; 4]%nat;
     neighbors := fun r =>
       match r with
       | 0%nat => [1; 4]%nat
       | 1%nat => [0; 2]%nat
       | 2%nat => [1; 3]%nat
       | 3%nat => [2; 4]%nat
       | 4%nat => [3; 0]%nat
       | _ => []
       end;
     node_attrs := fun _ => [] |}.

Definition cycle5_heap : heap := fresh (fun _ => 1 # 2).

(** The cycle with budgets (60, 100): every node defended, every node
    flagged for the direct attack. *)
Definition cycle5_start : State :=
  {| objs := allocated cycle5 60 100 cycle5_heap; calls := 0 |}.

(** The state in which the trial on the path with budgets (2, 40) ends. *)
Definition path3_end : State :=
  state (final (entry 40 path3_start) path3_trace).

End MoreExamples.

(** ** More predicates *)

Module MoreProps.
Import NetGen Sim.

(** Two heaps differ in the flags [is_attacked] and [is_compromised] at
    most. *)
Definition same_but_flags (h h' : heap) : Prop :=
  forall r,
    name (h' r) = name (h r)
    /\ defense_value (h' r) = defense_value (h r)
    /\ attack_value (h' r) = attack_value (h r)
    /\ centrality_value (h' r) = centrality_value (h r).

(** A step that is an indirect attack. *)
Definition is_indirect (st : Step) : bool :=
  match event st with
  | Indirect _ _ => true
  | _ => false
  end.

(** The nodes of a graph are as [Node()] leaves them, but for their
    centrality. *)
Definition untouched (g : Graph) (h : heap) : Prop :=
  forall r, In r (nodes g) ->
    defense_value (h r) = 0%Z
    /\ is_attacked (h r) = false
    /\ is_compromised (h r) = false.

(** The passes of the loop that a trial on [g] with budget [b] needs at
    most: one per node and one per half unit left after the direct
    attack. *)
Definition passes (g : Graph) (b : Q) : nat :=
  (length (nodes g)
   + Z.to_nat (Qceiling (2 * (b - inject_Z (calc_direct_attack_budget b)))))%nat.

(** A fraction. *)
Definition fraction (q : Q) : Prop := (0 <= q /\ q <= 1)%Q.

(** A graph has fewer nodes than the [k] that allocation flags. *)
Definition short (k : Z) (g : Graph) : Prop :=
  (Z.of_nat (number_of_nodes g) < k)%Z.

(** The infiltration data of a list of graphs: one fraction for each. *)
Definition infiltration (graphs : list Graph) (data : list Q) : Prop :=
  length data = length graphs /\ Forall fraction data.

(** A dictionary holds infiltration data of [graphs] under every budget
    mapping, in the order of [budget_mappings]. *)
Definition complete (graphs : list Graph) (d : Driver.dict) : Prop :=
  map fst d = Driver.budget_mappings
  /\ Forall (fun kv => infiltration graphs (snd kv)) d.

End MoreProps.
Import MoreProps.

(** ** Facts about numbers and lists *)

Lemma Qltb_lt (x y : Q) : Qltb x y = true <-> (x < y)%Q.
Proof.
  unfold Qltb. rewrite negb_true_iff. split; intro H.
  - apply Qnot_le_lt. intro Hle. apply Qle_bool_iff in Hle. congruence.
  - destruct (Qle_bool y x) eqn:E; trivial.
    apply Qle_bool_iff in E. exfalso. exact (Qlt_not_le _ _ H E).
Qed.

Lemma Qltb_ge (x y : Q) : Qltb x y = false <-> (y <= x)%Q.
Proof.
  unfold Qltb. rewrite negb_false_iff. apply Qle_bool_iff.
Qed.


Lemma range_nonpos (n : Z) : (n <= 0)%Z -> range n = [].
Proof.
  intro H. unfold range. replace (Z.to_nat n) with O by lia. reflexivity.
Qed.

(** The ceiling is the one integer [k] with [k - 1 < x <= k]. *)
Lemma Qceiling_bounds (x : Q) :
  (inject_Z (Qceiling x) - 1 < x /\ x <= inject_Z (Qceiling x))%Q.
Proof.
  split.
  - pose proof (Qceiling_lt x) as H.
    replace (Qceiling x - 1)%Z with (Qceiling x + - (1))%Z in H by lia.
    rewrite inject_Z_plus, inject_Z_opp in H. exact H.
  - apply Qle_ceiling.
Qed.

Lemma Qceiling_unique (x : Q) (k : Z) :
  (inject_Z k - 1 < x)%Q -> (x <= inject_Z k)%Q -> Qceiling x = k.
Proof.
  intros Hlo Hhi. destruct (Qceiling_bounds x) as [Clo Chi].
  assert (H1 : (inject_Z (Qceiling x) < inject_Z k + 1)%Q) by lra.
  assert (H2 : (inject_Z k < inject_Z (Qceiling x) + 1)%Q) by lra.
  change 1%Q with (inject_Z 1) in H1, H2.
  rewrite <- inject_Z_plus in H1, H2.
  rewrite <- Zlt_Qlt in H1, H2. lia.
Qed.

(** ** Facts about the heap and the ranking *)

Section HeapFacts.
Import NetGen.

Lemma update_same (h : heap) (r : ref) (f : Node -> Node) :
  update h r f r = f (h r).
Proof. unfold update. now rewrite Nat.eqb_refl. Qed.

Lemma update_other (h : heap) (r r' : ref) (f : Node -> Node) :
  r' <> r -> update h r f r' = h r'.
Proof.
  intro H. unfold update. apply Nat.eqb_neq in H. now rewrite H.
Qed.

Lemma ranked_nil (h : heap) : ranked h [].
Proof. intros [|i] j x y _ Hx; discriminate. Qed.

Lemma ranked_cons (h : heap) (x : ref) (l : list ref) :
  (forall y, In y l -> (key h y <= key h x)%Q) -> ranked h l ->
  ranked h (x :: l).
Proof.
  intros Hx Hl [|i] [|j] a b Hij Ha Hb; simpl in *.
  - inversion Ha; inversion Hb; subst. apply Qle_refl.
  - inversion Ha; subst. apply Hx. eapply nth_error_In; eauto.
  - lia.
  - eapply Hl; [ | eassumption | eassumption ]. lia.
Qed.

Lemma ranked_tail (h : heap) (x : ref) (l : list ref) :
  ranked h (x :: l) -> ranked h l.
Proof.
  intros H i j a b Hij Ha Hb. apply (H (S i) (S j)); simpl; auto. lia.
Qed.

Lemma ranked_head (h : heap) (x y : ref) (l : list ref) :
  ranked h (x :: l) -> In y l -> (key h y <= key h x)%Q.
Proof.
  intros H Hy. apply In_nth_error in Hy. destruct Hy as [j Hj].
  apply (H O (S j)); simpl; auto. lia.
Qed.

Lemma insert_desc_In (h : heap) (x y : ref) (l : list ref) :
  In y (insert_desc h x l) <-> y = x \/ In y l.
Proof.
  induction l as [|z l IH]; simpl.
  - intuition.
  - destruct (Qltb (key h x) (key h z)); simpl; rewrite ?IH; intuition.
Qed.

Lemma insert_desc_ranked (h : heap) (x : ref) (l : list ref) :
  ranked h l -> ranked h (insert_desc h x l).
Proof.
  induction l as [|z l IH]; intro Hl; simpl.
  - apply ranked_cons; [intros y []|apply ranked_nil].
  - destruct (Qltb (key h x) (key h z)) eqn:E.
    + apply Qltb_lt in E. apply ranked_cons.
      * intros y Hy. apply insert_desc_In in Hy. destruct Hy as [->|Hy].
        -- now apply Qlt_le_weak.
        -- eapply ranked_head; eauto.
      * apply IH. eapply ranked_tail; eauto.
    + apply Qltb_ge in E. apply ranked_cons; trivial.
      intros y [<-|Hy]; trivial.
      eapply Qle_trans; [eapply ranked_head; eauto|trivial].
Qed.

Lemma sorted_desc_In (h : heap) (y : ref) (l : list ref) :
  In y (sorted_desc h l) <-> In y l.
Proof.
  induction l as [|x l IH]; simpl; [tauto|].
  rewrite insert_desc_In, IH. intuition.
Qed.

Lemma sorted_desc_ranked (h : heap) (l : list ref) :
  ranked h (sorted_desc h l).
Proof.
  induction l as [|x l IH]; simpl.
  - apply ranked_nil.
  - now apply insert_desc_ranked.
Qed.

Lemma insert_desc_length (h : heap) (x : ref) (l : list ref) :
  length (insert_desc h x l) = S (length l).
Proof.
  induction l as [|z l IH]; simpl; trivial.
  destruct (Qltb (key h x) (key h z)); simpl; now rewrite ?IH.
Qed.

Lemma sorted_desc_length (h : heap) (l : list ref) :
  length (sorted_desc h l) = length l.
Proof.
  induction l as [|x l IH]; simpl; trivial.
  now rewrite insert_desc_length, IH.
Qed.

Lemma insert_desc_NoDup (h : heap) (x : ref) (l : list ref) :
  ~ In x l -> NoDup l -> NoDup (insert_desc h x l).
Proof.
  induction l as [|z l IH]; intros Hx Hl; simpl.
  - constructor; [tauto|constructor].
  - destruct (Qltb (key h x) (key h z)).
    + inversion Hl; subst. constructor.
      * rewrite insert_desc_In. simpl in Hx. intuition.
      * apply IH; trivial. simpl in Hx. tauto.
    + now constructor.
Qed.

Lemma sorted_desc_NoDup (h : heap) (l : list ref) :
  NoDup l -> NoDup (sorted_desc h l).
Proof.
  induction 1 as [|x l Hx Hl IH]; simpl; [constructor|].
  apply insert_desc_NoDup; trivial. now rewrite sorted_desc_In.
Qed.

(** The ranking reads centrality only. *)
Lemma sorted_desc_ext (h h' : heap) (l : list ref) :
  (forall r, centrality_value (h' r) = centrality_value (h r)) ->
  sorted_desc h' l = sorted_desc h l.
Proof.
  intro H. induction l as [|x l IH]; simpl; trivial. rewrite IH.
  generalize (sorted_desc h l). intro m.
  induction m as [|z m IHm]; simpl; trivial.
  unfold key. rewrite !H. now rewrite IHm.
Qed.

(** *** Loops over the first elements of a list *)

Lemma for_index_seq (l : list ref) (body : ref -> heap -> heap)
    (k a : nat) (h : heap) :
  (a + k <= length l)%nat ->
  for_index l body (seq a k) h
  = Ok (fold_left (fun h r => body r h) (firstn k (skipn a l)) h).
Proof.
  revert a h. induction k as [|k IH]; intros a h Hlen; simpl.
  - reflexivity.
  - destruct (nth_error l a) as [r|] eqn:E.
    + rewrite IH by lia.
      assert (Hs : skipn a l = r :: skipn (S a) l).
      { clear -E. revert l E. induction a as [|a IHa]; intros [|x l] E;
          simpl in *; try discriminate.
        - now inversion E.
        - now apply IHa. }
      rewrite Hs. reflexivity.
    + apply nth_error_None in E. lia.
Qed.

Lemma for_index_prefix (l : list ref) (body : ref -> heap -> heap)
    (k : nat) (h : heap) :
  (k <= length l)%nat ->
  for_index l body (seq 0 k) h
  = Ok (fold_left (fun h r => body r h) (firstn k l) h).
Proof. intro H. now rewrite for_index_seq by lia. Qed.

Lemma for_index_overrun (l : list ref) (body : ref -> heap -> heap)
    (k a : nat) (h : heap) :
  (a <= length l < a + k)%nat ->
  for_index l body (seq a k) h = Raise IndexError.
Proof.
  revert a h. induction k as [|k IH]; intros a h Hlen; simpl; [lia|].
  destruct (nth_error l a) as [r|] eqn:E; trivial.
  apply IH. assert (a < length l)%nat by (apply nth_error_Some; congruence).
  lia.
Qed.

End HeapFacts.

(** ** Allocation *)

Section Allocation.
Import NetGen.

Lemma fold_update_notin (f : Node -> Node) (l : list ref) (h : heap)
    (r : ref) :
  ~ In r l -> fold_left (fun h r => update h r f) l h r = h r.
Proof.
  revert h. induction l as [|x l IH]; intros h Hr; simpl; trivial.
  rewrite IH by (simpl in Hr; tauto).
  apply update_other. simpl in Hr. intro; subst; tauto.
Qed.

Lemma fold_update_keeps (A : Type) (proj : Node -> A) (f : Node -> Node)
    (l : list ref) (h : heap) (r : ref) :
  (forall x, proj (f x) = proj x) ->
  proj (fold_left (fun h r => update h r f) l h r) = proj (h r).
Proof.
  intro Hf. revert h. induction l as [|x l IH]; intros h; simpl; trivial.
  rewrite IH. unfold update. destruct (Nat.eqb r x) eqn:E; trivial.
  apply Nat.eqb_eq in E. subst. apply Hf.
Qed.

Lemma fold_update_sets (P : Node -> Prop) (f : Node -> Node)
    (l : list ref) (h : heap) (r : ref) :
  (forall x, P (f x)) -> In r l ->
  P (fold_left (fun h r => update h r f) l h r).
Proof.
  intros Hf. revert h. induction l as [|x l IH]; intros h Hr; simpl.
  - destruct Hr.
  - destruct (in_dec Nat.eq_dec r l) as [Hin|Hout].
    + now apply IH.
    + rewrite fold_update_notin by trivial.
      destruct Hr as [->|Hr]; [|tauto]. rewrite update_same. apply Hf.
Qed.

Lemma assign_defense_values_ok (l : list ref) (b : Z) (h : heap) :
  assign_defense_values l b h
  = Ok (fold_left (fun h r => update h r (set_defense_value 1))
          (firstn (Z.to_nat (Z.min b (Z.of_nat (length l)))) l) h).
Proof.
  unfold assign_defense_values, range.
  destruct (Z.of_nat (length l) <? b)%Z eqn:E.
  - apply Z.ltb_lt in E. rewrite Z.min_r by lia.
    apply for_index_prefix. lia.
  - apply Z.ltb_ge in E. rewrite Z.min_l by lia.
    apply for_index_prefix. lia.
Qed.

Lemma ranked_split (h : heap) (k : nat) (l : list ref) (d u : ref) :
  ranked h l -> In d (firstn k l) -> In u (skipn k l) ->
  (key h u <= key h d)%Q.
Proof.
  revert l. induction k as [|k IH]; intros l Hl Hd Hu.
  - destruct Hd.
  - destruct l as [|x l]; [destruct Hd|]. simpl in Hd, Hu.
    destruct Hd as [<-|Hd].
    + eapply ranked_head; eauto.
      rewrite <- (firstn_skipn k l). apply in_or_app. now right.
    + apply (IH l); [eapply ranked_tail; exact Hl | exact Hd | exact Hu].
Qed.

End Allocation.

Section DefenseAllocation.
Import NetGen.

Variables (l : list ref) (h : heap) (defense_budget : Z).
Hypothesis distinct : NoDup l.
Hypothesis by_rank : ranked h l.
Hypothesis undefended : forall r, In r l -> defense_value (h r) = 0%Z.
Hypothesis budget_nonneg : (0 <= defense_budget)%Z.

Let k : nat := Z.to_nat (Z.min defense_budget (Z.of_nat (length l))).
Let h' : heap :=
  fold_left (fun h r => update h r (set_defense_value 1)) (firstn k l) h.

Lemma defended_top (r : ref) :
  In r (firstn k l) -> defense_value (h' r) = 1%Z.
Proof.
  intro Hr. unfold h'.
  apply (fold_update_sets (fun x => defense_value x = 1%Z)); trivial.
Qed.

Lemma undefended_rest (r : ref) :
  In r (skipn k l) -> defense_value (h' r) = 0%Z.
Proof.
  intro Hr. unfold h'. rewrite fold_update_notin.
  - apply undefended. rewrite <- (firstn_skipn k l). apply in_or_app.
    now right.
  - intro Hf. pose proof distinct as Hd.
    rewrite <- (firstn_skipn k l) in Hd.
    apply NoDup_app_remove_l in Hd as Hd'.
    clear Hd'. revert Hd Hf Hr.
    generalize (firstn k l) (skipn k l). intros a b Hd Hf Hr.
    induction a as [|x a IH]; [destruct Hf|].
    simpl in Hd. inversion Hd; subst. destruct Hf as [->|Hf].
    + apply H1. apply in_or_app. now right.
    + now apply IH.
Qed.

Lemma defended_is_top : defended h' l = firstn k l.
Proof.
  unfold defended. rewrite <- (firstn_skipn k l) at 1.
  rewrite filter_app.
  assert (E1 : filter (fun r => (defense_value (h' r) =? 1)%Z) (firstn k l)
               = firstn k l).
  { pose proof defended_top as Ht. revert Ht.
    generalize (firstn k l). intros a Ht.
    induction a as [|x a IH]; simpl; trivial.
    rewrite Ht by now left. simpl. f_equal. apply IH.
    intros r Hr. apply Ht. now right. }
  assert (E2 : filter (fun r => (defense_value (h' r) =? 1)%Z) (skipn k l)
               = []).
  { pose proof undefended_rest as Hu. revert Hu.
    generalize (skipn k l). intros b Hu.
    induction b as [|x b IH]; simpl; trivial.
    rewrite Hu by now left. simpl. apply IH.
    intros r Hr. apply Hu. now right. }
  rewrite E1, E2. apply app_nil_r.
Qed.

(** C9. For nodes ranked by centrality descending, all undefended, and a
    non-negative integer budget, [assign_defense_values] returns normally;
    afterwards exactly [min(defense_budget, node count)] nodes of the list
    have [defense_value = 1], every other node of the list still has 0,
    nothing else changed (no object outside the list, no centrality), and
    every defended node's centrality is at least that of every undefended
    node. *)
Theorem assign_defense_values_top_ranked :
  exists h1,
    assign_defense_values l defense_budget h = Ok h1
    /\ Z.of_nat (length (defended h1 l))
       = Z.min defense_budget (Z.of_nat (length l))
    /\ (forall r, In r l -> ~ In r (defended h1 l) ->
          defense_value (h1 r) = 0%Z)
    /\ (forall r, In r (defended h1 l) -> defense_value (h1 r) = 1%Z)
    /\ (forall r, ~ In r l -> h1 r = h r)
    /\ (forall r, centrality_value (h1 r) = centrality_value (h r))
    /\ (forall d u, In d l -> In u l ->
          defense_value (h1 d) = 1%Z -> defense_value (h1 u) = 0%Z ->
          (centrality_value (h1 u) <= centrality_value (h1 d))%Q).
Proof.
  exists h'. split; [apply assign_defense_values_ok|].
  assert (Hsplit : forall r, In r l -> In r (firstn k l) \/ In r (skipn k l)).
  { intros r Hr. rewrite <- (firstn_skipn k l) in Hr.
    now apply in_app_or in Hr. }
  assert (Hkeep : forall r,
             centrality_value (h' r) = centrality_value (h r)).
  { intro r. unfold h'. now apply fold_update_keeps. }
  rewrite defended_is_top.
  split; [|split; [|split; [|split; [|split]]]].
  - rewrite length_firstn. unfold k. pose proof budget_nonneg. lia.
  - intros r Hr Hn. destruct (Hsplit r Hr) as [H|H]; [tauto|].
    now apply undefended_rest.
  - apply defended_top.
  - intros r Hr. unfold h'. apply fold_update_notin.
    intro Hf. apply Hr. rewrite <- (firstn_skipn k l). apply in_or_app.
    now left.
  - exact Hkeep.
  - intros d u Hd Hu Dd Du. rewrite !Hkeep.
    destruct (Hsplit d Hd) as [Hd1|Hd1];
      [|rewrite undefended_rest in Dd by trivial; discriminate].
    destruct (Hsplit u Hu) as [Hu1|Hu1];
      [rewrite defended_top in Du by trivial; discriminate|].
    change (key h u <= key h d)%Q. eapply ranked_split; eassumption.
Qed.

End DefenseAllocation.

Section AttackAllocation.
Import NetGen.

(** The exact reading: for every non-negative [b],
    [calc_direct_attack_budget b] is the least integer that is at least
    [0.05 * b]; it is 3 for [b = 60] and 5 for [b = 100]. *)
Lemma calc_direct_attack_budget_exact (b : Q) :
  (0 <= b)%Q ->
  ((5 # 100) * b <= inject_Z (calc_direct_attack_budget b))%Q
  /\ (forall m : Z, ((5 # 100) * b <= inject_Z m)%Q ->
        (calc_direct_attack_budget b <= m)%Z)
  /\ (0 <= calc_direct_attack_budget b)%Z
  /\ calc_direct_attack_budget 60 = 3%Z
  /\ calc_direct_attack_budget 100 = 5%Z.
Proof.
  intro Hb. unfold calc_direct_attack_budget.
  destruct (Qceiling_bounds ((5 # 100) * b)) as [Hlo Hhi].
  split; [exact Hhi|]. split; [|split; [|split; reflexivity]].
  - intros m Hm.
    assert (H : (inject_Z (Qceiling ((5 # 100) * b)) < inject_Z m + 1)%Q)
      by lra.
    change 1%Q with (inject_Z 1) in H. rewrite <- inject_Z_plus in H.
    rewrite <- Zlt_Qlt in H. lia.
  - assert (H : (inject_Z 0 < inject_Z (Qceiling ((5 # 100) * b)) + 1)%Q).
    { change (inject_Z 0) with 0%Q. lra. }
    change 1%Q with (inject_Z 1) in H. rewrite <- inject_Z_plus in H.
    rewrite <- Zlt_Qlt in H. lia.
Qed.

(** On an int budget the ceiling is an integer division. *)
Lemma calc_direct_attack_budget_int (n : Z) :
  calc_direct_attack_budget (inject_Z n) = ((n + 19) / 20)%Z.
Proof.
  unfold calc_direct_attack_budget. apply Qceiling_unique.
  - pose proof (Z.div_mod (n + 19) 20 ltac:(lia)) as E.
    pose proof (Z.mod_pos_bound (n + 19) 20 ltac:(lia)) as B.
    set (q := ((n + 19) / 20)%Z) in *.
    assert (H : (20 * q - 20 < n)%Z) by lia.
    rewrite Zlt_Qlt in H.
    replace (20 * q - 20)%Z with (20 * q + - (20))%Z in H by lia.
    rewrite inject_Z_plus, inject_Z_mult, inject_Z_opp in H.
    change (inject_Z 20) with 20%Q in H. lra.
  - pose proof (Z.div_mod (n + 19) 20 ltac:(lia)) as E.
    pose proof (Z.mod_pos_bound (n + 19) 20 ltac:(lia)) as B.
    set (q := ((n + 19) / 20)%Z) in *.
    assert (H : (n <= 20 * q)%Z) by lia.
    rewrite Zle_Qle in H. rewrite inject_Z_mult in H.
    change (inject_Z 20) with 20%Q in H. lra.
Qed.

(** Rounding does not show on the budgets of the experiment: for every
    int budget up to 10000 the product computed in binary64 has the same
    ceiling as the exact one, by evaluation. *)
Lemma calc_direct_attack_budget_binary64 :
  forallb Binary64.agrees (map Z.of_nat (range 10001)) = true.
Proof. vm_compute. reflexivity. Qed.

Lemma calc_direct_attack_budget_nonpos (b : Q) :
  (b <= 0)%Q -> (calc_direct_attack_budget b <= 0)%Z.
Proof.
  intro Hb. unfold calc_direct_attack_budget.
  destruct (Qceiling_bounds ((5 # 100) * b)) as [Hlo _].
  assert (H : (inject_Z (Qceiling ((5 # 100) * b)) < inject_Z 0 + 1)%Q).
  { change (inject_Z 0) with 0%Q. lra. }
  change 1%Q with (inject_Z 1) in H. rewrite <- inject_Z_plus in H.
  rewrite <- Zlt_Qlt in H. lia.
Qed.

Lemma assign_attack_values_ok (l : list ref) (b : Q) (h : heap) :
  (calc_direct_attack_budget b <= Z.of_nat (length l))%Z ->
  assign_attack_values l b h
  = Ok (fold_left
          (fun h r =>
             update (update h r (set_attack_value 1)) r
               (set_is_attacked true))
          (firstn (Z.to_nat (calc_direct_attack_budget b)) l) h).
Proof.
  intro H. unfold assign_attack_values, range.
  apply for_index_prefix. lia.
Qed.

Lemma assign_attack_values_overrun (l : list ref) (b : Q) (h : heap) :
  (Z.of_nat (length l) < calc_direct_attack_budget b)%Z ->
  assign_attack_values l b h = Raise IndexError.
Proof.
  intro H. unfold assign_attack_values, range.
  apply for_index_overrun. lia.
Qed.

End AttackAllocation.

(** ** Rounding to nearest in binary64 *)

Section Rounding.
Local Open Scope Z_scope.

Lemma digits2_pos_bounds (p : positive) :
  2 ^ (Zpos (digits2_pos p) - 1) <= Zpos p < 2 ^ Zpos (digits2_pos p).
Proof.
  induction p as [p IH|p IH|]; cbn [digits2_pos].
  - rewrite Pos2Z.inj_succ, (Pos2Z.inj_xI p).
    replace (Z.succ (Zpos (digits2_pos p)) - 1)
      with (Z.succ (Zpos (digits2_pos p) - 1)) by lia.
    rewrite !Z.pow_succ_r by lia. lia.
  - rewrite Pos2Z.inj_succ, (Pos2Z.inj_xO p).
    replace (Z.succ (Zpos (digits2_pos p)) - 1)
      with (Z.succ (Zpos (digits2_pos p) - 1)) by lia.
    rewrite !Z.pow_succ_r by lia. lia.
  - simpl. lia.
Qed.

Lemma digits2_pos_unique (p : positive) (d : Z) :
  2 ^ (d - 1) <= Zpos p < 2 ^ d -> Zpos (digits2_pos p) = d.
Proof.
  intro H. pose proof (digits2_pos_bounds p) as B.
  set (d' := Zpos (digits2_pos p)) in *.
  destruct (Z.lt_trichotomy d' d) as [Hlt|[Heq|Hgt]]; trivial; exfalso.
  - assert (2 ^ d' <= 2 ^ (d - 1)) by (apply Z.pow_le_mono_r; lia). lia.
  - assert (2 ^ d <= 2 ^ (d' - 1)) by (apply Z.pow_le_mono_r; lia). lia.
Qed.

Lemma shr_1_spec (m : Z) (r s : bool) :
  0 <= m ->
  shr_1 {| shr_m := m; shr_r := r; shr_s := s |}
  = {| shr_m := m / 2; shr_r := Z.odd m; shr_s := r || s |}.
Proof.
  intro Hm. rewrite <- Z.div2_div.
  destruct m as [|[p|p|]|]; try lia; reflexivity.
Qed.

Lemma iter_pos_nat (A : Type) (f : A -> A) (p : positive) (x : A) :
  iter_pos f p x = Nat.iter (Pos.to_nat p) f x.
Proof.
  revert x. induction p as [p IH|p IH|]; intro x; cbn [iter_pos].
  - rewrite !IH, Pos2Nat.inj_xI.
    replace (S (2 * Pos.to_nat p)) with (Pos.to_nat p + S (Pos.to_nat p))%nat
      by lia.
    rewrite Nat.iter_add. f_equal. symmetry. apply Nat.iter_succ_r.
  - rewrite !IH, Pos2Nat.inj_xO.
    replace (2 * Pos.to_nat p)%nat with (Pos.to_nat p + Pos.to_nat p)%nat
      by lia.
    now rewrite Nat.iter_add.
  - reflexivity.
Qed.

(** [k + 1] shifts to the right keep the quotient, the last bit shifted out
    and whether a bit before it was set. *)
Lemma shr_iter (k : nat) (m : Z) :
  0 <= m ->
  Nat.iter (S k) shr_1 {| shr_m := m; shr_r := false; shr_s := false |}
  = {| shr_m := m / 2 ^ Z.of_nat (S k);
       shr_r := Z.odd (m / 2 ^ Z.of_nat k);
       shr_s := negb (m mod 2 ^ Z.of_nat k =? 0) |}.
Proof.
  intro Hm. induction k as [|k IH].
  - cbn [Nat.iter]. rewrite shr_1_spec by trivial.
    change (2 ^ Z.of_nat 1) with 2. change (2 ^ Z.of_nat 0) with 1.
    now rewrite Z.div_1_r, Z.mod_1_r.
  - rewrite (Nat.iter_succ (S k)), IH.
    assert (Hp : 0 < 2 ^ Z.of_nat k) by (apply Z.pow_pos_nonneg; lia).
    assert (Hq : 0 <= m / 2 ^ Z.of_nat (S k)).
    { apply Z.div_pos; [trivial|]. apply Z.pow_pos_nonneg; lia. }
    rewrite shr_1_spec by trivial. f_equal.
    + rewrite Z.div_div by (try apply Z.pow_pos_nonneg; lia).
      f_equal. rewrite (Nat2Z.inj_succ (S k)), Z.pow_succ_r by lia. lia.
    + rewrite (Nat2Z.inj_succ k), Z.pow_succ_r by lia.
      rewrite (Z.mul_comm 2), Z.rem_mul_r by lia.
      set (a := m mod 2 ^ Z.of_nat k).
      set (t := m / 2 ^ Z.of_nat k).
      assert (Ha : 0 <= a < 2 ^ Z.of_nat k) by (apply Z.mod_pos_bound; lia).
      rewrite <- (Z.bit0_odd t), (Z.bit0_eqb t).
      assert (Ht : t mod 2 = 0 \/ t mod 2 = 1)
        by (pose proof (Z.mod_pos_bound t 2); lia).
      destruct Ht as [-> | ->].
      * change (0 =? 1) with false. cbn [orb].
        now rewrite Z.mul_0_r, Z.add_0_r.
      * change (1 =? 1) with true. cbn [orb].
        rewrite Z.mul_1_r. symmetry. apply negb_true_iff, Z.eqb_neq. lia.
Qed.

(** Rounding [P / 2^n] to nearest, ties to even. *)
Lemma round_shift (P : Z) (n : positive) :
  0 <= P ->
  let mrs :=
    iter_pos shr_1 n {| shr_m := P; shr_r := false; shr_s := false |} in
  let M := round_nearest_even (shr_m mrs) (loc_of_shr_record mrs) in
  let q := P / 2 ^ Zpos n in
  let R := P mod 2 ^ Zpos n in
  q <= M <= q + 1
  /\ (2 * R < 2 ^ Zpos n -> M = q)
  /\ (2 ^ Zpos n < 2 * R -> M = q + 1).
Proof.
  intros HP mrs M q R. subst mrs M.
  rewrite iter_pos_nat.
  destruct (Pos.to_nat n) as [|k] eqn:En; [lia|].
  rewrite shr_iter by trivial.
  assert (EN : Zpos n = Z.of_nat (S k)) by lia.
  assert (Hp : 0 < 2 ^ Z.of_nat k) by (apply Z.pow_pos_nonneg; lia).
  assert (ER : R = P mod 2 ^ Z.of_nat k
                   + 2 ^ Z.of_nat k * ((P / 2 ^ Z.of_nat k) mod 2)).
  { unfold R. rewrite EN, (Nat2Z.inj_succ k), Z.pow_succ_r by lia.
    rewrite (Z.mul_comm 2). apply Z.rem_mul_r; lia. }
  assert (E2 : 2 ^ Zpos n = 2 * 2 ^ Z.of_nat k).
  { rewrite EN, (Nat2Z.inj_succ k), Z.pow_succ_r by lia. reflexivity. }
  rewrite <- EN. fold q. rewrite E2.
  set (a := P mod 2 ^ Z.of_nat k) in *.
  set (t := P / 2 ^ Z.of_nat k) in *.
  assert (Ha : 0 <= a < 2 ^ Z.of_nat k) by (apply Z.mod_pos_bound; lia).
  cbn [shr_m shr_r shr_s loc_of_shr_record].
  rewrite <- (Z.bit0_odd t), (Z.bit0_eqb t).
  assert (Ht : t mod 2 = 0 \/ t mod 2 = 1)
    by (pose proof (Z.mod_pos_bound t 2); lia).
  destruct Ht as [Et|Et]; rewrite Et in *.
  - change (0 =? 1) with false.
    destruct (a =? 0) eqn:Ea; cbn [negb round_nearest_even]; lia.
  - change (1 =? 1) with true.
    destruct (a =? 0) eqn:Ea; cbn [negb round_nearest_even].
    + apply Z.eqb_eq in Ea. destruct (Z.even q); lia.
    + apply Z.eqb_neq in Ea. lia.
Qed.

End Rounding.

Section RoundedProduct.
Local Open Scope Z_scope.

(** [binary_round_aux] on a mantissa of [n + 53] bits: the result is
    finite, and its value is the rounded quotient times [2 ^ (e + n)]. *)
Lemma binary_round_aux_finite (sx : bool) (pp : positive) (e : Z)
    (n : positive) :
  Zpos (digits2_pos pp) = Zpos n + 53 ->
  -1074 <= e + Zpos n -> e + Zpos n + 1 <= 971 ->
  exists mr er,
    binary_round_aux prec emax sx (Zpos pp) e loc_Exact
    = S754_finite sx mr er
    /\ (er = e + Zpos n \/ er = e + Zpos n + 1)
    /\ let M := Zpos mr * 2 ^ (er - (e + Zpos n)) in
       let q := Zpos pp / 2 ^ Zpos n in
       let R := Zpos pp mod 2 ^ Zpos n in
       q <= M <= q + 1
       /\ (2 * R < 2 ^ Zpos n -> M = q)
       /\ (2 ^ Zpos n < 2 * R -> M = q + 1).
Proof.
  intros Hd Hlo Hhi.
  pose proof (digits2_pos_bounds pp) as B. rewrite Hd in B.
  assert (HN : 0 < 2 ^ Zpos n) by (apply Z.pow_pos_nonneg; lia).
  assert (E52 : 2 ^ (Zpos n + 53 - 1) = 2 ^ Zpos n * 2 ^ 52).
  { rewrite <- Z.pow_add_r by lia. f_equal. lia. }
  assert (E53 : 2 ^ (Zpos n + 53) = 2 ^ Zpos n * 2 ^ 53).
  { rewrite <- Z.pow_add_r by lia. reflexivity. }
  rewrite E52, E53 in B.
  assert (Hq : 2 ^ 52 <= Zpos pp / 2 ^ Zpos n < 2 ^ 53).
  { split.
    - apply Z.div_le_lower_bound; lia.
    - apply Z.div_lt_upper_bound; lia. }
  destruct (round_shift (P := Zpos pp) n ltac:(lia)) as (HM & Hlt & Hgt).
  unfold binary_round_aux, shr_fexp. cbn [Zdigits2]. rewrite Hd.
  assert (Ef : fexp prec emax (Zpos n + 53 + e) - e = Zpos n).
  { unfold fexp, emin, prec, emax. lia. }
  rewrite Ef. cbn [shr shr_record_of_loc].
  set (mrs := iter_pos shr_1 n
                {| shr_m := Zpos pp; shr_r := false; shr_s := false |}) in *.
  set (M := round_nearest_even (shr_m mrs) (loc_of_shr_record mrs)) in *.
  destruct M as [|mm|mm] eqn:EM; try lia.
  destruct (Z.eq_dec (Zpos mm) (2 ^ 53)) as [Etop|Hne].
  - injection Etop as ->. exists (Z.to_pos (2 ^ 52)), (e + Zpos n + 1).
    split; [|split].
    + assert (Ef2 : fexp prec emax (54 + (e + Zpos n)) - (e + Zpos n) = 1).
      { unfold fexp, emin, prec, emax. lia. }
      change (Zdigits2 9007199254740992) with 54.
      rewrite Ef2. cbn [shr iter_pos shr_record_of_loc shr_1 shr_m].
      assert (El : (e + Zpos n + 1 <=? emax - prec) = true)
        by (apply Z.leb_le; unfold emax, prec; lia).
      rewrite El. reflexivity.
    + now right.
    + replace (e + Zpos n + 1 - (e + Zpos n)) with 1 by lia.
      change (Zpos (Z.to_pos (2 ^ 52)) * 2 ^ 1) with (2 ^ 53).
      change (2 ^ 53) with 9007199254740992 in *.
      cbv zeta. repeat split; lia.
  - exists mm, (e + Zpos n). split; [|split].
    + assert (Edm : Zpos (digits2_pos mm) = 53)
        by (apply digits2_pos_unique; change (2 ^ (53 - 1)) with (2 ^ 52); lia).
      cbn [Zdigits2]. rewrite Edm.
      assert (Ef2 : fexp prec emax (53 + (e + Zpos n)) - (e + Zpos n) = 0).
      { unfold fexp, emin, prec, emax. lia. }
      rewrite Ef2. cbn [shr shr_record_of_loc shr_m].
      assert (El : (e + Zpos n <=? emax - prec) = true)
        by (apply Z.leb_le; unfold emax, prec; lia).
      rewrite El. reflexivity.
    + now left.
    + rewrite Z.sub_diag, Z.pow_0_r, Z.mul_1_r. cbv zeta.
      repeat split; trivial; lia.
Qed.

Lemma iter_xO (p k : positive) : Zpos (Pos.iter xO p k) = Zpos p * 2 ^ Zpos k.
Proof.
  induction k as [|k IH] using Pos.peano_ind.
  - cbn [Pos.iter]. rewrite (Pos2Z.inj_xO p). change (2 ^ 1) with 2. lia.
  - rewrite Pos.iter_succ, (Pos2Z.inj_xO (Pos.iter xO p k)), IH.
    rewrite Pos2Z.inj_succ, Z.pow_succ_r by lia. lia.
Qed.

(** [float(b)] for an int of at most 53 bits: exact, the mantissa shifted
    to 53 bits. *)
Lemma binary_normalize_exact (p : positive) :
  Zpos p < 2 ^ 53 ->
  let d := Zpos (digits2_pos p) in
  exists mz,
    binary_normalize prec emax (Zpos p) 0 false
    = S754_finite false mz (d - 53)
    /\ Zpos mz = Zpos p * 2 ^ (53 - d)
    /\ 1 <= d <= 53.
Proof.
  intros Hp d. pose proof (digits2_pos_bounds p) as B. fold d in B.
  assert (Hd : 1 <= d <= 53).
  { split; [unfold d; lia|].
    destruct (Z.le_gt_cases d 53) as [H|H]; trivial. exfalso.
    assert (2 ^ 53 <= 2 ^ (d - 1)) by (apply Z.pow_le_mono_r; lia). lia. }
  cbn [binary_normalize]. unfold binary_round. fold d.
  assert (Ef : fexp prec emax (d + 0) = d - 53)
    by (unfold fexp, emin, prec, emax; lia).
  rewrite Ef.
  assert (Hal : exists mz,
            shl_align p 0 (d - 53) = (mz, d - 53)
            /\ Zpos mz = Zpos p * 2 ^ (53 - d)).
  { unfold shl_align. destruct (d - 53 - 0) as [|k|k] eqn:Ek; try lia.
    - exists p. replace (53 - d) with 0 by lia.
      replace (d - 53) with 0 by lia. split; [reflexivity|lia].
    - exists (Pos.iter xO p k). split; [reflexivity|].
      rewrite iter_xO. f_equal. f_equal. lia. }
  destruct Hal as (mz & Eal & Emz). rewrite Eal. exists mz.
  split; [|split; trivial].
  assert (Hbz : 2 ^ 52 <= Zpos mz < 2 ^ 53).
  { rewrite Emz.
    assert (E1 : 2 ^ 52 = 2 ^ (d - 1) * 2 ^ (53 - d)).
    { rewrite <- Z.pow_add_r by lia. f_equal. lia. }
    assert (E2 : 2 ^ 53 = 2 ^ d * 2 ^ (53 - d)).
    { rewrite <- Z.pow_add_r by lia. f_equal. lia. }
    assert (0 < 2 ^ (53 - d)) by (apply Z.pow_pos_nonneg; lia).
    rewrite E1, E2. split.
    - apply Z.mul_le_mono_nonneg_r; lia.
    - apply Z.mul_lt_mono_pos_r; lia. }
  assert (Edm : Zpos (digits2_pos mz) = 53)
    by (apply digits2_pos_unique; change (2 ^ (53 - 1)) with (2 ^ 52); lia).
  unfold binary_round_aux, shr_fexp. cbn [Zdigits2]. rewrite Edm.
  assert (Ef2 : fexp prec emax (53 + (d - 53)) - (d - 53) = 0)
    by (unfold fexp, emin, prec, emax; lia).
  rewrite Ef2. cbn [shr shr_record_of_loc shr_m loc_of_shr_record
                      round_nearest_even Zdigits2].
  rewrite Edm, Ef2. cbn [shr shr_m].
  assert (El : (d - 53 <=? emax - prec) = true)
    by (apply Z.leb_le; unfold emax, prec; lia).
  now rewrite El.
Qed.

End RoundedProduct.

Section Twentieth.
Local Open Scope Z_scope.

Lemma ceil_div_unique (M U k : Z) :
  0 < U -> (k - 1) * U < M <= k * U -> - ((- M) / U) = k.
Proof.
  intros HU H.
  assert (E : (- M) / U = - k).
  { symmetry. apply Z.div_unique with (r := k * U - M); [lia|ring]. }
  rewrite E. lia.
Qed.

(** The double nearest to 1/20 is [m / 2^57] with [20 * m = 2^57 + 8]; the
    product with [b] has mantissa [P = m * b * A], where [A] brings [b] to
    53 bits, and is rounded at [N = 2^n]; [U] is the inverse of the unit
    in the last place of the result. *)
Lemma rounded_twentieth (b k A N U M : Z) :
  let P := 7205759403792794 * b * A in
  1 <= b < 2 ^ 53 -> 20 * (k - 1) < b <= 20 * k ->
  0 < A -> 0 < N -> A * 2 ^ 57 = N * U -> (U = 16 \/ 32 <= U) ->
  N * 2 ^ 52 <= P < N * 2 ^ 53 ->
  P / N <= M <= P / N + 1 ->
  (2 * (P mod N) < N -> M = P / N) ->
  (N < 2 * (P mod N) -> M = P / N + 1) ->
  (k - 1) * U < M <= k * U.
Proof.
  intros P Hb Hk HA HN HAU HU HP HM Hlt Hgt.
  change (2 ^ 53) with 9007199254740992 in *.
  change (2 ^ 52) with 4503599627370496 in *.
  change (2 ^ 57) with 144115188075855872 in *.
  pose proof (Z.div_mod P N ltac:(lia)) as EP.
  pose proof (Z.mod_pos_bound P N HN) as HR.
  set (q := P / N) in *. set (R := P mod N) in *.
  assert (HU0 : 0 < U) by lia.
  assert (E20 : 20 * P = b * (N * U) + 8 * (b * A)).
  { rewrite <- HAU. unfold P. ring. }
  split.
  - (* the result is above [(k - 1) * U] *)
    assert (Hc : 0 <= k - 1) by lia.
    assert (H1 : 20 * (k - 1) * (N * U) + N * U <= b * (N * U)).
    { assert (0 < N * U) by (apply Z.mul_pos_pos; lia).
      replace (20 * (k - 1) * (N * U) + N * U)
        with ((20 * (k - 1) + 1) * (N * U)) by ring.
      apply Z.mul_le_mono_nonneg_r; lia. }
    assert (H2 : 0 < b * A) by (apply Z.mul_pos_pos; lia).
    assert (H3 : N * (20 * ((k - 1) * U) + U) < N * (20 * (q + 1))).
    { replace (N * (20 * ((k - 1) * U) + U))
        with (20 * (k - 1) * (N * U) + N * U) by ring.
      replace (N * (20 * (q + 1))) with (20 * (N * q) + 20 * N) by ring.
      lia. }
    apply Z.mul_lt_mono_pos_l in H3; [|trivial].
    destruct HU as [HU|HU].
    + subst U. destruct (Z.eq_dec q ((k - 1) * 16)) as [Eq|Hne]; [|lia].
      assert (HR2 : N < 2 * R).
      { assert (20 * R = 20 * P - 20 * (N * q)) by lia.
        rewrite Eq in H.
        replace (20 * (N * ((k - 1) * 16)))
          with (20 * (k - 1) * (N * 16)) in H by ring.
        lia. }
      rewrite (Hgt HR2). lia.
    + lia.
  - (* the result is at most [k * U] *)
    destruct (Z.eq_dec b (20 * k)) as [Eb|Hne].
    + assert (EPk : P = N * (k * U) + 8 * (k * A)).
      { unfold P. rewrite Eb.
        replace (N * (k * U)) with (k * (N * U)) by ring.
        rewrite <- HAU. ring. }
      assert (Hw : 0 < k * A) by (apply Z.mul_pos_pos; lia).
      assert (H16 : 16 * (k * A) < N).
      { assert (k * (A * 144115188075855872) <= P).
        { rewrite EPk.
          replace (N * (k * U)) with (k * (N * U)) by ring.
          rewrite <- HAU. lia. }
        lia. }
      assert (Eq : q = k * U).
      { symmetry. apply Z.div_unique with (r := 8 * (k * A)); [lia|].
        exact EPk. }
      assert (ER : R = 8 * (k * A)).
      { symmetry. apply Z.mod_unique with (q := k * U); [lia|].
        exact EPk. }
      rewrite Hlt by lia. lia.
    + assert (Hq : q < k * U); [|lia].
      destruct (Z.lt_ge_cases q (k * U)) as [H|H]; trivial. exfalso.
      assert (H1 : N * (k * U) <= N * q)
        by (apply Z.mul_le_mono_nonneg_l; lia).
      assert (H2 : (k * 144115188075855872) * A
                   <= (7205759403792794 * b) * A).
      { replace (k * 144115188075855872 * A)
          with (k * (A * 144115188075855872)) by ring.
        rewrite HAU.
        replace (k * (N * U)) with (N * (k * U)) by ring.
        fold P. lia. }
      apply Z.mul_le_mono_pos_r in H2; [|trivial]. lia.
Qed.

End Twentieth.

Section Binary64Ceiling.
Local Open Scope Z_scope.

Lemma twentieth_bounds (b : Z) :
  20 * ((b + 19) / 20 - 1) < b <= 20 * ((b + 19) / 20).
Proof.
  pose proof (Z.div_mod (b + 19) 20 ltac:(lia)) as E.
  pose proof (Z.mod_pos_bound (b + 19) 20 ltac:(lia)) as B.
  lia.
Qed.

(** [math.ceil(0.05 * b)] in binary64, for every int of at most 53 bits:
    the rounding of the product never crosses an integer. *)
Lemma binary64_twentieth (b : Z) :
  0 <= b < 2 ^ 53 ->
  Binary64.calc_direct_attack_budget b = Some ((b + 19) / 20).
Proof.
  intro Hb. destruct (Z.eq_dec b 0) as [->|Hnz]; [reflexivity|].
  destruct b as [|p|p]; try lia.
  unfold Binary64.calc_direct_attack_budget, Binary64.math_ceil,
    Binary64.float_of_int.
  rewrite mul_spec, of_uint63_spec, of_Z_spec.
  rewrite Z.mod_small
    by (change wB with (2 ^ 63); change (2 ^ 63) with 9223372036854775808;
        change (2 ^ 53) with 9007199254740992 in Hb; lia).
  change (Prim2SF Binary64.literal_0_05)
    with (S754_finite false 7205759403792794 (-57)).
  destruct (@binary_normalize_exact p ltac:(lia)) as (mz & En & Emz & Hd).
  set (d := Zpos (digits2_pos p)) in *.
  rewrite En. unfold SF64mul. cbn [SFmul xorb].
  pose proof (digits2_pos_bounds p) as Bp. fold d in Bp.
  assert (HA : 0 < 2 ^ (53 - d)) by (apply Z.pow_pos_nonneg; lia).
  assert (Hbz : 2 ^ 52 <= Zpos mz < 2 ^ 53).
  { rewrite Emz.
    assert (E1 : 2 ^ 52 = 2 ^ (d - 1) * 2 ^ (53 - d)).
    { rewrite <- Z.pow_add_r by lia. f_equal. lia. }
    assert (E2 : 2 ^ 53 = 2 ^ d * 2 ^ (53 - d)).
    { rewrite <- Z.pow_add_r by lia. f_equal. lia. }
    rewrite E1, E2. split.
    - apply Z.mul_le_mono_nonneg_r; lia.
    - apply Z.mul_lt_mono_pos_r; lia. }
  set (pp := (7205759403792794 * mz)%positive).
  assert (Epp : Zpos pp = 7205759403792794 * Zpos p * 2 ^ (53 - d)).
  { unfold pp. rewrite Pos2Z.inj_mul, Emz. ring. }
  pose proof (digits2_pos_bounds pp) as Bpp.
  set (dp := Zpos (digits2_pos pp)) in *.
  assert (Hdp : dp = 105 \/ dp = 106).
  { assert (Hpp : 2 ^ 104 <= Zpos pp < 2 ^ 106).
    { unfold pp. rewrite Pos2Z.inj_mul.
      change (2 ^ 104) with (2 ^ 52 * 2 ^ 52).
      change (2 ^ 106) with (2 ^ 53 * 2 ^ 53).
      change (2 ^ 52) with 4503599627370496 in *.
      change (2 ^ 53) with 9007199254740992 in *.
      split.
      - apply Z.mul_le_mono_nonneg; lia.
      - apply Z.mul_lt_mono_nonneg; lia. }
    destruct (Z.lt_trichotomy dp 105) as [H|[H|H]]; [exfalso|now left|].
    - assert (2 ^ dp <= 2 ^ 104) by (apply Z.pow_le_mono_r; lia). lia.
    - destruct (Z.eq_dec dp 106) as [H'|H']; [now right|exfalso].
      assert (2 ^ 106 <= 2 ^ (dp - 1)) by (apply Z.pow_le_mono_r; lia).
      lia. }
  set (n := Z.to_pos (dp - 53)).
  assert (En' : Zpos n = dp - 53) by (unfold n; lia).
  assert (Hdn : Zpos (digits2_pos pp) = Zpos n + 53) by (fold dp; lia).
  destruct (@binary_round_aux_finite false pp (-57 + (d - 53)) n Hdn
              ltac:(lia) ltac:(lia))
    as (mr & er & Er & Her & HM & Hlt & Hgt).
  fold pp. rewrite Er.
  assert (Hneg : (0 <=? er) = false) by (apply Z.leb_gt; lia).
  rewrite Hneg. f_equal.
  set (e := -57 + (d - 53)) in *.
  set (U := 2 ^ (- (e + Zpos n))).
  assert (HU : U = 16 \/ 32 <= U).
  { unfold U. destruct (Z.eq_dec (- (e + Zpos n)) 4) as [E4|N4].
    - left. rewrite E4. reflexivity.
    - right. change 32 with (2 ^ 5). apply Z.pow_le_mono_r; lia. }
  assert (HAU : 2 ^ (53 - d) * 2 ^ 57 = 2 ^ Zpos n * U).
  { unfold U. rewrite <- !Z.pow_add_r by lia. f_equal. lia. }
  assert (HN : 0 < 2 ^ Zpos n) by (apply Z.pow_pos_nonneg; lia).
  assert (HPb : 2 ^ Zpos n * 2 ^ 52 <= Zpos pp < 2 ^ Zpos n * 2 ^ 53).
  { rewrite <- !Z.pow_add_r by lia.
    replace (Zpos n + 52) with (dp - 1) by lia.
    replace (Zpos n + 53) with dp by lia. exact Bpp. }
  pose proof (twentieth_bounds (Zpos p)) as Hk.
  rewrite Epp in HM, Hlt, Hgt, HPb.
  pose proof (@rounded_twentieth (Zpos p) ((Zpos p + 19) / 20)
                (2 ^ (53 - d)) (2 ^ Zpos n) U
                (Zpos mr * 2 ^ (er - (e + Zpos n)))
                ltac:(lia) Hk HA HN HAU HU HPb HM Hlt Hgt) as Hres.
  destruct Her as [Her|Her].
  - rewrite Her in *. rewrite Z.sub_diag, Z.pow_0_r, Z.mul_1_r in Hres.
    fold U. apply ceil_div_unique; [|exact Hres]. destruct HU; lia.
  - assert (EU : U = 2 * 2 ^ (- er)).
    { unfold U. rewrite <- Z.pow_succ_r by lia. f_equal. lia. }
    replace (er - (e + Zpos n)) with 1 in Hres by lia.
    change (2 ^ 1) with 2 in Hres.
    assert (0 < 2 ^ (- er)) by (apply Z.pow_pos_nonneg; lia).
    apply ceil_div_unique; [trivial|]. rewrite EU in Hres. lia.
Qed.

End Binary64Ceiling.

Section Binary64Claims.
Import NetGen.

(** The exact reading is the computation of the code: on every int budget
    of at most 53 bits [calc_direct_attack_budget], a ceiling of
    rationals, is what [math.ceil(0.05 * b)] returns in binary64. *)
Lemma calc_direct_attack_budget_binary64_agrees (b : Z) :
  (0 <= b < 2 ^ 53)%Z ->
  Binary64.calc_direct_attack_budget b
  = Some (calc_direct_attack_budget (inject_Z b)).
Proof.
  intro Hb. rewrite calc_direct_attack_budget_int.
  now apply binary64_twentieth.
Qed.

(** C4 (as amended). For every int budget [b] with [0 <= b < 2^53],
    [math.ceil(0.05 * b)], computed in binary64 as the code computes it,
    returns the ceiling of [0.05 * b]: the least integer that is at least
    a twentieth of [b], which is [(b + 19) div 20].  It returns 3 for
    [b = 60] and 5 for [b = 100]. *)
Theorem calc_direct_attack_budget_binary64_ceiling (b : Z) :
  (0 <= b < 2 ^ 53)%Z ->
  exists k : Z,
    Binary64.calc_direct_attack_budget b = Some k
    /\ ((5 # 100) * inject_Z b <= inject_Z k)%Q
    /\ (forall m : Z, ((5 # 100) * inject_Z b <= inject_Z m)%Q ->
          (k <= m)%Z)
    /\ k = ((b + 19) / 20)%Z
    /\ Binary64.calc_direct_attack_budget 60 = Some 3%Z
    /\ Binary64.calc_direct_attack_budget 100 = Some 5%Z.
Proof.
  intro Hb. exists (calc_direct_attack_budget (inject_Z b)).
  split; [now apply calc_direct_attack_budget_binary64_agrees|].
  assert (Hq : (0 <= inject_Z b)%Q).
  { change 0%Q with (inject_Z 0). rewrite <- Zle_Qle. lia. }
  unfold calc_direct_attack_budget at 1 2.
  destruct (Qceiling_bounds ((5 # 100) * inject_Z b)) as [Hlo Hhi].
  split; [exact Hhi|]. split; [|split].
  - intros m Hm.
    assert (H : (inject_Z (Qceiling ((5 # 100) * inject_Z b))
                 < inject_Z m + 1)%Q) by lra.
    change 1%Q with (inject_Z 1) in H. rewrite <- inject_Z_plus in H.
    rewrite <- Zlt_Qlt in H. lia.
  - apply calc_direct_attack_budget_int.
  - split; apply binary64_twentieth; split; try lia; reflexivity.
Qed.

(** C4 (as stated) fails beyond 53 bits: the int [2^53 + 9] is not a
    double, [float] rounds it to [2^53 + 8], whose twentieth the product
    rounds to the integer 450359962737050, while the ceiling of
    [0.05 * (2^53 + 9)] is 450359962737051. *)
Lemma calc_direct_attack_budget_not_ceiling :
  (0 <= 9007199254741001)%Z
  /\ Binary64.calc_direct_attack_budget 9007199254741001
     = Some 450359962737050%Z
  /\ Qceiling ((5 # 100) * inject_Z 9007199254741001)
     = 450359962737051%Z
  /\ Binary64.calc_direct_attack_budget 9007199254741001
     <> Some (Qceiling ((5 # 100) * inject_Z 9007199254741001)).
Proof.
  assert (E1 : Binary64.calc_direct_attack_budget 9007199254741001
               = Some 450359962737050%Z) by (vm_compute; reflexivity).
  assert (E2 : Qceiling ((5 # 100) * inject_Z 9007199254741001)
               = 450359962737051%Z) by (vm_compute; reflexivity).
  split; [lia|]. split; [exact E1|]. split; [exact E2|].
  rewrite E1, E2. discriminate.
Qed.

End Binary64Claims.

(** ** The continuation predicate *)

Section Continuation.
Import NetGen Sim.

Lemma get_node_attributes_generated (g : Graph) (name : string) :
  generated g -> get_node_attributes g name = [].
Proof.
  intro Hg. unfold get_node_attributes.
  induction (nodes g) as [|n ns IH]; simpl; trivial.
  now rewrite Hg.
Qed.

(** On a generated graph the predicate is the budget test alone. *)
Lemma check_trial_conditions_generated (g : Graph) (b : Q) :
  generated g -> check_trial_conditions g b = Qltb 0 b.
Proof.
  intro Hg. unfold check_trial_conditions.
  rewrite get_node_attributes_generated by trivial.
  simpl. apply andb_true_r.
Qed.

Lemma check_trial_conditions_budget (g : Graph) (b : Q) :
  check_trial_conditions g b = true -> (0 < b)%Q.
Proof.
  unfold check_trial_conditions. intro H.
  apply andb_true_iff in H. destruct H as [H _]. now apply Qltb_lt.
Qed.

(** The predicate depends on the budget through its sign only. *)
Lemma check_trial_conditions_stays_false (g : Graph) (b b' : Q) :
  check_trial_conditions g b = false -> (b' <= 0 \/ b' <= b)%Q ->
  check_trial_conditions g b' = false.
Proof.
  unfold check_trial_conditions. intros H Hb.
  apply andb_false_iff in H. apply andb_false_iff.
  destruct H as [H|H]; [left|now right].
  apply Qltb_ge in H. apply Qltb_ge. destruct Hb; lra.
Qed.

(** C1 (the code departs from the specification). On the one-node
    network with its node compromised and a budget of 1, no uncompromised
    node remains and the specified predicate is false, yet
    [check_trial_conditions] returns [True]: it never reads
    [Node.is_compromised].  The same happens inside a trial: with attack
    budget 20 the node is compromised by the direct attack, budget is
    left, and the loop is entered for a pass. *)
Theorem check_trial_conditions_all_compromised :
  generated Examples.one_node
  /\ (forall r, In r (nodes Examples.one_node) ->
        is_compromised (Examples.fallen r) = true)
  /\ Spec.continuation Examples.one_node Examples.fallen 1 = false
  /\ check_trial_conditions Examples.one_node 1 = true
  /\ trial_trace Examples.always_hit 100 Examples.one_node 20
       Examples.one_node_rich_start
     = Some Examples.one_node_rich_trace
  /\ exists st,
       nth_error Examples.one_node_rich_trace 2 = Some st
       /\ event st = Popped 0%nat
       /\ Spec.continuation Examples.one_node (objs (state (before st)))
            (attack_budget (before st)) = false
       /\ check_trial_conditions Examples.one_node
            (attack_budget (before st)) = true.
Proof.
  split; [intro r; reflexivity|].
  split; [intros r _; reflexivity|].
  split; [reflexivity|]. split; [reflexivity|].
  split; [vm_compute; reflexivity|].
  eexists. split; [vm_compute; reflexivity|].
  repeat split.
Qed.

End Continuation.

(** ** The trial and its steps *)

Section TrialFacts.
Import NetGen Sim.
Variable random : nat -> Q.

Lemma last_default (A : Type) (x : A) (l : list A) (d d' : A) :
  last (x :: l) d = last (x :: l) d'.
Proof.
  revert x. induction l as [|y l IH]; intro x; trivial.
  change (last (y :: l) d = last (y :: l) d'). apply IH.
Qed.

Lemma final_cons (t : Trial) (st : Step) (tr : list Step) :
  final t (st :: tr) = final (after st) tr.
Proof.
  unfold final. simpl. destruct (map after tr) as [|x m]; trivial.
  apply last_default.
Qed.

Lemma final_app (t : Trial) (tr1 tr2 : list Step) :
  final t (tr1 ++ tr2) = final (final t tr1) tr2.
Proof.
  revert t. induction tr1 as [|st tr1 IH]; intro t; simpl; trivial.
  now rewrite !final_cons, IH.
Qed.

Lemma chained_app (t : Trial) (tr1 tr2 : list Step) :
  chained t tr1 -> chained (final t tr1) tr2 -> chained t (tr1 ++ tr2).
Proof.
  revert t. induction tr1 as [|st tr1 IH]; intros t H1 H2; simpl; trivial.
  destruct H1 as [Hb H1]. split; trivial. apply IH; trivial.
  now rewrite final_cons in H2.
Qed.

(** *** The steps end where the functions of the source end *)

Lemma direct_trace_final (l : list ref) (t : Trial) :
  final t (direct_trace random l t)
  = {| state := fold_left (direct_attack random) l (state t);
       attack_budget := attack_budget t; targets := targets t |}.
Proof.
  revert t. induction l as [|n l IH]; intro t; simpl.
  - now destruct t.
  - rewrite final_cons. simpl. now rewrite IH.
Qed.

Lemma spread_steps_final (g : Graph) (c : ref) (l : list ref) (t : Trial) :
  final t (spread_steps random g c l t)
  = fold_left (attack_target random g c) l t.
Proof.
  revert t. induction l as [|x l IH]; intro t; trivial.
  cbn [spread_steps fold_left].
  destruct (check_trial_conditions g (attack_budget t)
            && negb (is_attacked (objs (state t) x))) eqn:E.
  - rewrite final_cons. cbn [after]. apply IH.
  - assert (Ht : attack_target random g c t x = t)
      by (unfold attack_target; now rewrite E).
    rewrite Ht. apply IH.
Qed.

Lemma spread_trace_final (g : Graph) (c : ref) (t : Trial) :
  final t (spread_trace random g c t) = spread random g c t.
Proof.
  unfold spread_trace, spread.
  destruct (is_compromised (objs (state t) c)); trivial.
  apply spread_steps_final.
Qed.

Lemma loop_trace_agrees (fuel : nat) (g : Graph) (t : Trial) :
  trial_loop random fuel g t
  = option_map (final t) (loop_trace random fuel g t).
Proof.
  revert t. induction fuel as [|fuel IH]; intro t; simpl.
  - destruct (check_trial_conditions g (attack_budget t)
              && (0 <? length (targets t))%nat); reflexivity.
  - destruct (check_trial_conditions g (attack_budget t)
              && (0 <? length (targets t))%nat); trivial.
    destruct (pop (targets t)) as [[c rest]|]; trivial.
    rewrite IH, <- spread_trace_final.
    destruct (loop_trace random fuel g _) as [tr|]; simpl; trivial.
    now rewrite final_cons, final_app.
Qed.

(** [deg_deg_trial] returns what the last state of its steps holds. *)
Lemma trial_trace_agrees (fuel : nat) (g : Graph) (b : Q) (s : State) :
  deg_deg_trial random fuel g b s
  = option_map
      (fun tr =>
         let t := final (entry b s) tr in
         (frac_compromised g (objs (state t)), state t))
      (trial_trace random fuel g b s).
Proof.
  unfold deg_deg_trial, trial_trace, deg_deg_initial_attack.
  rewrite loop_trace_agrees, direct_trace_final. simpl.
  destruct (loop_trace random fuel g _) as [tr|]; simpl; trivial.
  now rewrite final_cons, final_app, direct_trace_final.
Qed.

(** *** The loop ends *)

Lemma pop_length (l rest : list ref) (c : ref) :
  pop l = Some (c, rest) -> length l = S (length rest).
Proof.
  unfold pop. intro H. destruct (rev l) as [|x r] eqn:E; [discriminate|].
  inversion H; subst. rewrite <- (length_rev l), E. simpl.
  now rewrite length_rev.
Qed.

Lemma pop_nonempty (l : list ref) :
  (0 <? length l)%nat = true -> exists c rest, pop l = Some (c, rest).
Proof.
  intro H. apply Nat.ltb_lt in H. unfold pop.
  destruct (rev l) as [|x r] eqn:E.
  - rewrite <- (length_rev l), E in H. simpl in H. lia.
  - eauto.
Qed.

Lemma pop_last (l rest : list ref) (c : ref) :
  pop l = Some (c, rest) -> l = rest ++ [c].
Proof.
  unfold pop. intro H. destruct (rev l) as [|x r] eqn:E; [discriminate|].
  inversion H; subst. rewrite <- (rev_involutive l), E. reflexivity.
Qed.

Lemma half_unit_spent (b : Q) :
  (0 < b)%Q ->
  (Z.to_nat (Qceiling (2 * (b - (5 # 10)))) < Z.to_nat (Qceiling (2 * b)))%nat.
Proof.
  intro Hb.
  destruct (Qceiling_bounds (2 * b)) as [_ Hhi].
  assert (Hpos : (0 < Qceiling (2 * b))%Z).
  { rewrite Zlt_Qlt. change (inject_Z 0) with 0%Q. lra. }
  assert (Hle : (Qceiling (2 * (b - (5 # 10))) <= Qceiling (2 * b) - 1)%Z).
  { rewrite <- (Qceiling_Z (Qceiling (2 * b) - 1)).
    apply Qceiling_resp_le.
    replace (Qceiling (2 * b) - 1)%Z with (Qceiling (2 * b) + - (1))%Z
      by lia.
    rewrite inject_Z_plus, inject_Z_opp. change (inject_Z 1) with 1%Q.
    lra. }
  lia.
Qed.

Lemma attack_target_fuel (g : Graph) (c x : ref) (t : Trial) :
  (enough_fuel (attack_target random g c t x) <= enough_fuel t)%nat.
Proof.
  unfold attack_target.
  destruct (check_trial_conditions g (attack_budget t)
            && negb (is_attacked (objs (state t) x))) eqn:E; trivial.
  apply andb_true_iff in E. destruct E as [E _].
  apply check_trial_conditions_budget in E.
  unfold enough_fuel. simpl. rewrite length_app. simpl.
  pose proof (half_unit_spent E). lia.
Qed.

Lemma spread_fuel (g : Graph) (c : ref) (t : Trial) :
  (enough_fuel (spread random g c t) <= enough_fuel t)%nat.
Proof.
  unfold spread. destruct (is_compromised (objs (state t) c)); trivial.
  generalize (sorted_desc (objs (state t)) (neighbors g c)). intro l.
  revert t. induction l as [|x l IH]; intro t; simpl; trivial.
  eapply Nat.le_trans; [apply IH|apply attack_target_fuel].
Qed.

(** With [enough_fuel] passes, or more, the loop reaches its exit. *)
Lemma trial_loop_terminates (g : Graph) (fuel : nat) (t : Trial) :
  (enough_fuel t <= fuel)%nat ->
  exists t', trial_loop random fuel g t = Some t'.
Proof.
  revert t. induction fuel as [|fuel IH]; intros t Hf; simpl.
  - destruct (check_trial_conditions g (attack_budget t)
              && (0 <? length (targets t))%nat) eqn:E; eauto.
    apply andb_true_iff in E. destruct E as [_ E].
    apply Nat.ltb_lt in E. unfold enough_fuel in Hf. lia.
  - destruct (check_trial_conditions g (attack_budget t)
              && (0 <? length (targets t))%nat) eqn:E; eauto.
    apply andb_true_iff in E. destruct E as [_ E].
    destruct (pop_nonempty _ E) as (c & rest & Hp). rewrite Hp.
    apply IH. eapply Nat.le_trans; [apply spread_fuel|].
    apply pop_length in Hp. unfold enough_fuel in *. simpl. lia.
Qed.

(** The passes that are enough for a whole trial. *)
Lemma deg_deg_trial_terminates (g : Graph) (b : Q) (s : State) :
  exists fuel0, forall fuel, (fuel0 <= fuel)%nat ->
    exists r s', deg_deg_trial random fuel g b s = Some (r, s').
Proof.
  unfold deg_deg_trial, deg_deg_initial_attack.
  set (t := {| state := _; attack_budget := _; targets := _ |}).
  exists (enough_fuel t). intros fuel Hf.
  destruct (trial_loop_terminates g t Hf) as [t' Ht].
  rewrite Ht. eauto.
Qed.

End TrialFacts.

(** ** What each step does to the nodes *)

Section StepFacts.
Import NetGen Sim.
Variable random : nat -> Q.
Variable g : Graph.

Lemma direct_attack_objs (s : State) (n : ref) :
  exists p,
    direct_attack random s n
    = {| objs := update (objs s) n
                   (set_is_compromised (Qltb (random (calls s)) p));
         calls := S (calls s) |}
    /\ p = (if (defense_value (objs s n) =? 1)%Z then 7 # 10 else 9 # 10).
Proof.
  unfold direct_attack, resolve.
  destruct (defense_value (objs s n) =? 1)%Z; eauto.
Qed.

(** The four branches of the indirect attack, or none of them. *)
Lemma indirect_resolve_objs (c x : ref) (s : State) :
  indirect_resolve random c x s = s
  \/ exists p,
       indirect_resolve random c x s
       = {| objs := update (objs s) x
                      (set_is_compromised (Qltb (random (calls s)) p));
            calls := S (calls s) |}.
Proof.
  unfold indirect_resolve, resolve.
  repeat match goal with
         | |- context [if ?b then _ else _] => destruct b
         end; eauto.
Qed.

Lemma attack_target_fired (c x : ref) (t : Trial) :
  check_trial_conditions g (attack_budget t) = true ->
  is_attacked (objs (state t) x) = false ->
  let t' := attack_target random g c t x in
  (forall r, r <> x -> objs (state t') r = objs (state t) r)
  /\ is_attacked (objs (state t') x) = true
  /\ defense_value (objs (state t') x) = defense_value (objs (state t) x)
  /\ centrality_value (objs (state t') x)
     = centrality_value (objs (state t) x)
  /\ attack_budget t' = attack_budget t - (5 # 10)
  /\ targets t' = targets t ++ [x].
Proof.
  intros Hc Ha. unfold attack_target. rewrite Hc, Ha. simpl.
  match goal with
  | |- context [indirect_resolve random c x ?s] =>
      destruct (indirect_resolve_objs c x s) as [E|[p E]]; rewrite E
  end; simpl.
  - repeat split; trivial.
    + intros r Hr. now apply update_other.
    + now rewrite update_same.
    + now rewrite update_same.
    + now rewrite update_same.
  - repeat split; trivial.
    + intros r Hr. now rewrite !update_other.
    + now rewrite !update_same.
    + now rewrite !update_same.
    + now rewrite !update_same.
Qed.

Lemma step_no_retreat (st : Step) :
  step_ok random g st -> no_retreat (before st) (after st).
Proof.
  unfold step_ok, no_retreat. destruct (event st) as [|n|c|c x].
  - intros [Hs _] r. rewrite Hs. tauto.
  - intros (_ & Ha & Hc & ->) r. simpl.
    destruct (direct_attack_objs (state (before st)) n) as (p & E & _).
    rewrite E. simpl. destruct (Nat.eq_dec r n) as [->|Hr].
    + rewrite update_same. simpl. split; trivial. congruence.
    + rewrite update_other by trivial. tauto.
  - intros (_ & _ & Hs & _) r. rewrite Hs. tauto.
  - intros (Hk & _ & _ & Ha & Hc & ->) r.
    destruct (attack_target_fired c x (before st) Hk Ha)
      as (Ho & Hx & _).
    destruct (Nat.eq_dec r x) as [->|Hr].
    + split; congruence.
    + rewrite (Ho r Hr). tauto.
Qed.

Lemma step_footholds (st : Step) :
  step_ok random g st -> footholds_attacked (before st) ->
  footholds_attacked (after st).
Proof.
  unfold step_ok, footholds_attacked. destruct (event st) as [|n|c|c x].
  - intros [Hs _] H r. rewrite Hs. apply H.
  - intros (_ & Ha & Hc & ->) H r. simpl.
    destruct (direct_attack_objs (state (before st)) n) as (p & E & _).
    rewrite E. simpl. destruct (Nat.eq_dec r n) as [->|Hr].
    + rewrite update_same. simpl. trivial.
    + rewrite update_other by trivial. apply H.
  - intros (_ & _ & Hs & _) H r. rewrite Hs. apply H.
  - intros (Hk & _ & _ & Ha & Hc & ->) H r.
    destruct (attack_target_fired c x (before st) Hk Ha)
      as (Ho & Hx & _).
    destruct (Nat.eq_dec r x) as [->|Hr]; trivial.
    rewrite (Ho r Hr). apply H.
Qed.


(** *** Properties of all the states of a run of steps *)



Lemma run_footholds (t : Trial) (tr : list Step) :
  chained t tr -> Forall (step_ok random g) tr ->
  footholds_attacked t ->
  Forall footholds_attacked (states t tr).
Proof.
  unfold states. revert t.
  induction tr as [|st tr IH]; intros t Hc Hok Hf; simpl.
  - now constructor.
  - constructor; trivial. destruct Hc as [<- Hc].
    inversion Hok; subst. apply IH; trivial. now apply step_footholds.
Qed.

Lemma final_in_states (t : Trial) (tr : list Step) :
  In (final t tr) (states t tr).
Proof.
  revert t. induction tr as [|st tr IH]; intro t.
  - now left.
  - rewrite final_cons. right. apply IH.
Qed.

Lemma run_footholds_final (t : Trial) (tr : list Step) :
  chained t tr -> Forall (step_ok random g) tr ->
  footholds_attacked t -> footholds_attacked (final t tr).
Proof.
  intros Hc Hok Hf.
  pose proof (run_footholds Hc Hok Hf) as H.
  rewrite Forall_forall in H. apply H. apply final_in_states.
Qed.


End StepFacts.

(** ** Every step of a trial is one of the four kinds *)

Section TraceSound.
Import NetGen Sim.
Variable random : nat -> Q.
Variable g : Graph.

Lemma direct_trace_sound (l : list ref) (t : Trial) :
  NoDup l ->
  (forall n, In n l ->
     In n (nodes g)
     /\ is_attacked (objs (state t) n) = true
     /\ is_compromised (objs (state t) n) = false) ->
  chained t (direct_trace random l t)
  /\ Forall (step_ok random g) (direct_trace random l t).
Proof.
  revert t. induction l as [|n l IH]; intros t Hd Hl; simpl.
  - split; [exact I|constructor].
  - inversion Hd as [|? ? Hn Hd']; subst.
    destruct (Hl n (or_introl eq_refl)) as (Hg & Ha & Hc).
    assert (Hstep : step_ok random g
                      (mkStep (Direct n) t (direct_attack_in random t n))).
    { unfold step_ok. simpl. auto. }
    destruct (IH (direct_attack_in random t n) Hd') as [C F].
    { intros m Hm. destruct (Hl m (or_intror Hm)) as (Hg' & Ha' & Hc').
      assert (Hne : m <> n) by (intro; subst; tauto).
      simpl. destruct (direct_attack_objs random (state t) n) as (p & E & _).
      rewrite E. simpl. rewrite update_other by trivial. auto. }
    split; [split; trivial|constructor; trivial].
Qed.

Lemma spread_steps_sound (c : ref) (l : list ref) (t : Trial) :
  footholds_attacked t ->
  is_compromised (objs (state t) c) = true ->
  incl l (neighbors g c) ->
  chained t (spread_steps random g c l t)
  /\ Forall (step_ok random g) (spread_steps random g c l t).
Proof.
  revert t. induction l as [|x l IH]; intros t Hf Hc Hl.
  - split; [exact I|constructor].
  - cbn [spread_steps].
    assert (Hl' : incl l (neighbors g c)).
    { intros y Hy. apply Hl. now right. }
    destruct (check_trial_conditions g (attack_budget t)
              && negb (is_attacked (objs (state t) x))) eqn:E.
    + apply andb_true_iff in E. destruct E as [Hk Ha].
      apply negb_true_iff in Ha.
      set (t' := attack_target random g c t x).
      assert (Hstep : step_ok random g (mkStep (Indirect c x) t t')).
      { unfold step_ok. simpl. repeat split; trivial.
        - apply Hl. now left.
        - destruct (is_compromised (objs (state t) x)) eqn:Ec; trivial.
          apply Hf in Ec. congruence. }
      destruct (IH t') as [C F]; trivial.
      * exact (@step_footholds random g _ Hstep Hf).
      * destruct (@step_no_retreat random g _ Hstep c) as [_ H].
        now apply H.
      * split; [split; trivial|constructor; trivial].
    + assert (Ht : attack_target random g c t x = t)
        by (unfold attack_target; now rewrite E).
      rewrite Ht. now apply IH.
Qed.

Lemma spread_trace_sound (c : ref) (t : Trial) :
  footholds_attacked t ->
  chained t (spread_trace random g c t)
  /\ Forall (step_ok random g) (spread_trace random g c t).
Proof.
  intro Hf. unfold spread_trace.
  destruct (is_compromised (objs (state t) c)) eqn:E.
  - apply spread_steps_sound; trivial.
    intros y Hy. now apply sorted_desc_In in Hy.
  - split; [exact I|constructor].
Qed.

Lemma loop_trace_sound (fuel : nat) (t : Trial) (tr : list Step) :
  footholds_attacked t ->
  loop_trace random fuel g t = Some tr ->
  chained t tr /\ Forall (step_ok random g) tr.
Proof.
  revert t tr. induction fuel as [|fuel IH]; intros t tr Hf; simpl.
  - destruct (check_trial_conditions g (attack_budget t)
              && (0 <? length (targets t))%nat); [discriminate|].
    intro H. inversion H. split; [exact I|constructor].
  - destruct (check_trial_conditions g (attack_budget t)
              && (0 <? length (targets t))%nat) eqn:E.
    2:{ intro H. inversion H. split; [exact I|constructor]. }
    apply andb_true_iff in E. destruct E as [Hk _].
    destruct (pop (targets t)) as [[c rest]|] eqn:Hp; [|discriminate].
    set (t1 := {| state := state t; attack_budget := attack_budget t;
                  targets := rest |}).
    destruct (loop_trace random fuel g
                (final t1 (spread_trace random g c t1))) as [tr'|] eqn:El;
      [|discriminate].
    intro H. inversion H; subst tr. clear H.
    assert (Hf1 : footholds_attacked t1) by exact Hf.
    destruct (@spread_trace_sound c t1 Hf1) as [C1 F1].
    destruct (IH _ _ (@run_footholds_final random g _ _ C1 F1 Hf1) El)
      as [C2 F2].
    split.
    + split; trivial. simpl. now apply chained_app.
    + constructor.
      * unfold step_ok. simpl. auto.
      * apply Forall_app. now split.
Qed.

(** A trial started with no node compromised goes through steps of the
    four kinds, each from the state the previous one left. *)
Lemma trial_trace_sound (fuel : nat) (b : Q) (s : State)
    (tr : list Step) :
  NoDup (nodes g) -> uncompromised (objs s) ->
  trial_trace random fuel g b s = Some tr ->
  chained (entry b s) tr /\ Forall (step_ok random g) tr.
Proof.
  intros Hd Hu. unfold trial_trace.
  set (l := filter (fun node => is_attacked (objs s node)) (nodes g)).
  set (t1 := {| state := s; attack_budget := _; targets := _ |}).
  destruct (loop_trace random fuel g (final t1 (direct_trace random l t1)))
    as [tr'|] eqn:El; [|discriminate].
  intro H. inversion H; subst tr. clear H.
  assert (Hf1 : footholds_attacked t1).
  { intros r Hr. simpl in Hr. rewrite Hu in Hr. discriminate. }
  destruct (@direct_trace_sound l t1) as [C1 F1].
  { now apply NoDup_filter. }
  { intros n Hn. apply filter_In in Hn. destruct Hn as [Hg Ha].
    simpl. auto. }
  destruct (@loop_trace_sound fuel _ _
              (@run_footholds_final random g _ _ C1 F1 Hf1) El)
    as [C2 F2].
  split.
  - split; trivial. simpl. now apply chained_app.
  - constructor.
    + unfold step_ok. simpl. auto.
    + apply Forall_app. now split.
Qed.

(** The trace exists: the fuel that the loop needs is enough. *)
Lemma trial_trace_terminates (b : Q) (s : State) :
  exists fuel0, forall fuel, (fuel0 <= fuel)%nat ->
    exists tr, trial_trace random fuel g b s = Some tr.
Proof.
  destruct (deg_deg_trial_terminates random g b s) as [fuel0 H].
  exists fuel0. intros fuel Hf. destruct (H fuel Hf) as (r & s' & E).
  rewrite trial_trace_agrees in E.
  destruct (trial_trace random fuel g b s) as [tr|]; [eauto|discriminate].
Qed.

End TraceSound.

(** ** Invariants of a trial *)

Section Invariants.
Import NetGen Sim.
Variable random : nat -> Q.
Variable g : Graph.

(** A property kept, and a relation built up, by every step hold between
    any earlier and any later state of a run. *)
Lemma run_between (P : Trial -> Prop) (R : Trial -> Trial -> Prop) :
  (forall t, R t t) ->
  (forall t1 t2 t3, R t1 t2 -> R t2 t3 -> R t1 t3) ->
  (forall st, step_ok random g st -> P (before st) ->
     P (after st) /\ R (before st) (after st)) ->
  forall t tr, chained t tr -> Forall (step_ok random g) tr ->
  forall i j ti tj, (i <= j)%nat ->
    nth_error (states t tr) i = Some ti ->
    nth_error (states t tr) j = Some tj ->
    P ti -> P tj /\ R ti tj.
Proof.
  intros Rrefl Rtrans Hstep.
  assert (Hhead : forall tr t, chained t tr ->
            Forall (step_ok random g) tr ->
            forall j tj, nth_error (states t tr) j = Some tj ->
            P t -> P tj /\ R t tj).
  { induction tr as [|st tr IH]; intros t Hc Hok j tj Hj HP.
    - destruct j as [|[|j]]; simpl in Hj; try discriminate.
      inversion Hj; subst. auto.
    - destruct Hc as [<- Hc]. inversion Hok; subst.
      destruct j as [|j]; simpl in Hj.
      + inversion Hj; subst. auto.
      + destruct (Hstep st) as [HP' HR]; trivial.
        destruct (IH (after st) Hc H2 j tj Hj HP') as [HPj HRj].
        split; trivial. eapply Rtrans; eauto. }
  intros t tr. revert t.
  induction tr as [|st tr IH]; intros t Hc Hok i j ti tj Hij Hi Hj HP.
  - destruct i as [|[|i]]; simpl in Hi; try discriminate.
    assert (j = O).
    { destruct j as [|[|j]]; simpl in Hj; trivial; discriminate. }
    subst. simpl in Hj. inversion Hi; inversion Hj; subst. auto.
  - destruct i as [|i].
    + simpl in Hi. inversion Hi; subst.
      eapply Hhead; eauto.
    + destruct j as [|j]; [lia|]. destruct Hc as [<- Hc].
      inversion Hok; subst. simpl in Hi, Hj.
      exact (IH (after st) Hc H2 i j ti tj ltac:(lia) Hi Hj HP).
Qed.

(** Flags that never go back rise at most once. *)
Lemma rises_at_most_once (f : Node -> bool) (r : ref) :
  forall tr t, chained t tr ->
    (forall st, In st tr ->
       f (objs (state (before st)) r) = true ->
       f (objs (state (after st)) r) = true) ->
    (length (filter (rises f r) tr)
     <= if f (objs (state t) r) then 0 else 1)%nat
    /\ filter (falls f r) tr = [].
Proof.
  induction tr as [|st tr IH]; intros t Hc Hm.
  - simpl. split; trivial. destruct (f (objs (state t) r)); lia.
  - destruct Hc as [Hb Hc].
    assert (Hm' : forall st', In st' tr ->
              f (objs (state (before st')) r) = true ->
              f (objs (state (after st')) r) = true).
    { intros st' Hin. apply Hm. now right. }
    destruct (IH (after st) Hc Hm') as [IHr IHf].
    pose proof (Hm st (or_introl eq_refl)) as Hst.
    simpl. unfold rises at 1, falls at 1. rewrite Hb.
    destruct (f (objs (state t) r)) eqn:E1;
      destruct (f (objs (state (after st)) r)) eqn:E2; simpl;
      rewrite ?Hb, ?E1 in *; simpl in *; auto.
    + specialize (Hst eq_refl). discriminate.
    + split; trivial. lia.
Qed.

(** *** The ledger *)

Lemma half_units_spend (t : Trial) (b' : Q) :
  half_units t -> (0 < attack_budget t)%Q ->
  (b' == attack_budget t - (5 # 10))%Q ->
  exists k : Z, (0 <= k)%Z /\ (b' == inject_Z k * (1 # 2))%Q.
Proof.
  intros (k & Hk & E) Hpos Hb'. exists (k - 1)%Z.
  assert (Hk1 : (0 < k)%Z).
  { rewrite Zlt_Qlt. change (inject_Z 0) with 0%Q. lra. }
  split; [lia|].
  replace (k - 1)%Z with (k + - (1))%Z by lia.
  rewrite inject_Z_plus, inject_Z_opp. change (inject_Z 1) with 1%Q.
  lra.
Qed.

Lemma attack_target_half_units (c x : ref) (t : Trial) :
  half_units t -> half_units (attack_target random g c t x).
Proof.
  intro H. unfold attack_target.
  destruct (check_trial_conditions g (attack_budget t)
            && negb (is_attacked (objs (state t) x))) eqn:E; trivial.
  apply andb_true_iff in E. destruct E as [E _].
  apply check_trial_conditions_budget in E.
  unfold half_units. simpl.
  eapply half_units_spend; eauto. reflexivity.
Qed.

Lemma final_Forall (P : Trial -> Prop) (t : Trial) (tr : list Step) :
  P t -> Forall P (map after tr) -> P (final t tr).
Proof.
  revert t. induction tr as [|st tr IH]; intros t Ht Hf; trivial.
  rewrite final_cons. inversion Hf; subst. now apply IH.
Qed.

Lemma direct_trace_half_units (l : list ref) (t : Trial) :
  half_units t -> Forall half_units (map after (direct_trace random l t)).
Proof.
  revert t. induction l as [|n l IH]; intros t H; simpl; constructor.
  - exact H.
  - apply IH. exact H.
Qed.

Lemma spread_steps_half_units (c : ref) (l : list ref) (t : Trial) :
  half_units t ->
  Forall half_units (map after (spread_steps random g c l t)).
Proof.
  revert t. induction l as [|x l IH]; intros t H; [constructor|].
  cbn [spread_steps].
  pose proof (attack_target_half_units c x H) as H'.
  destruct (check_trial_conditions g (attack_budget t)
            && negb (is_attacked (objs (state t) x))); simpl.
  - constructor; trivial. now apply IH.
  - now apply IH.
Qed.

Lemma spread_trace_half_units (c : ref) (t : Trial) :
  half_units t ->
  Forall half_units (map after (spread_trace random g c t)).
Proof.
  intro H. unfold spread_trace.
  destruct (is_compromised (objs (state t) c)); [|constructor].
  now apply spread_steps_half_units.
Qed.

Lemma loop_trace_half_units (fuel : nat) (t : Trial) (tr : list Step) :
  half_units t -> loop_trace random fuel g t = Some tr ->
  Forall half_units (map after tr).
Proof.
  revert t tr. induction fuel as [|fuel IH]; intros t tr Ht; simpl.
  - destruct (check_trial_conditions g (attack_budget t)
              && (0 <? length (targets t))%nat); [discriminate|].
    intro H. inversion H. constructor.
  - destruct (check_trial_conditions g (attack_budget t)
              && (0 <? length (targets t))%nat).
    2:{ intro H. inversion H. constructor. }
    destruct (pop (targets t)) as [[c rest]|]; [|discriminate].
    set (t1 := {| state := state t; attack_budget := attack_budget t;
                  targets := rest |}).
    assert (H1 : half_units t1) by exact Ht.
    pose proof (spread_trace_half_units c H1) as Hs.
    destruct (loop_trace random fuel g
                (final t1 (spread_trace random g c t1))) as [tr'|] eqn:El;
      [|discriminate].
    intro H. inversion H; subst tr. clear H. simpl.
    constructor; trivial. rewrite map_app. apply Forall_app. split; trivial.
    eapply IH; [|exact El]. now apply final_Forall.
Qed.

Lemma half_units_nonneg (t : Trial) :
  half_units t -> (0 <= attack_budget t)%Q.
Proof.
  intros (k & Hk & E). rewrite E. rewrite Zle_Qle in Hk.
  change (inject_Z 0) with 0%Q in Hk. lra.
Qed.

Lemma first_deduction (b : Z) :
  (0 <= b)%Z ->
  exists k : Z, (0 <= k)%Z
    /\ (inject_Z b - inject_Z (calc_direct_attack_budget (inject_Z b))
        == inject_Z k * (1 # 2))%Q.
Proof.
  intro Hb. rewrite calc_direct_attack_budget_int.
  exists (2 * (b - (b + 19) / 20))%Z. split.
  - pose proof (Z.div_mod (b + 19) 20 ltac:(lia)) as E.
    pose proof (Z.mod_pos_bound (b + 19) 20 ltac:(lia)) as B. lia.
  - rewrite inject_Z_mult.
    replace (b - (b + 19) / 20)%Z with (b + - ((b + 19) / 20))%Z by lia.
    rewrite inject_Z_plus, inject_Z_opp. change (inject_Z 2) with 2%Q.
    field.
Qed.

(** C10. For every non-negative integer attack budget and every graph,
    the trial ends and the ledger of [deg_deg_trial] is at least 0 in
    every state of the trial: on entry, after the deduction of
    [ceil(0.05 * budget)], and after every direct attack, pop and
    indirect attack. *)
Theorem ledger_never_negative (b : Z) (s : State) :
  (0 <= b)%Z ->
  (exists fuel0, forall fuel, (fuel0 <= fuel)%nat ->
     exists tr, trial_trace random fuel g (inject_Z b) s = Some tr)
  /\ forall fuel tr,
      trial_trace random fuel g (inject_Z b) s = Some tr ->
      Forall (fun t => (0 <= attack_budget t)%Q)
        (states (entry (inject_Z b) s) tr).
Proof.
  intros Hb. split; [apply trial_trace_terminates|].
  intros fuel tr. unfold trial_trace.
  set (l := filter (fun node => is_attacked (objs s node)) (nodes g)).
  set (t1 := {| state := s; attack_budget := _; targets := _ |}).
  destruct (loop_trace random fuel g (final t1 (direct_trace random l t1)))
    as [tr'|] eqn:El; [|discriminate].
  intro H. inversion H; subst tr. clear H.
  assert (H1 : half_units t1) by (apply first_deduction; exact Hb).
  pose proof (direct_trace_half_units l H1) as Hd.
  assert (Hl : Forall half_units (map after tr')).
  { eapply loop_trace_half_units; [|exact El]. now apply final_Forall. }
  unfold states. constructor.
  - simpl. rewrite Zle_Qle in Hb. exact Hb.
  - simpl. constructor; [now apply half_units_nonneg|].
    rewrite map_app. apply Forall_app. split.
    + eapply Forall_impl; [|exact Hd]. apply half_units_nonneg.
    + eapply Forall_impl; [|exact Hl]. apply half_units_nonneg.
Qed.

End Invariants.

Section Monotone.
Import NetGen Sim.
Variable random : nat -> Q.
Variable g : Graph.

(** C7. A trial started with no node compromised ends, and the flags of
    every node are monotone in it: between any earlier and any later state
    of the trial no [is_attacked] and no [is_compromised] goes from [True]
    back to [False]; each flag of each node rises in at most one step and
    falls in none. *)
Theorem attack_state_never_retreats (b : Q) (s : State) :
  NoDup (nodes g) -> uncompromised (objs s) ->
  (exists fuel0, forall fuel, (fuel0 <= fuel)%nat ->
     exists tr, trial_trace random fuel g b s = Some tr)
  /\ forall fuel tr,
      trial_trace random fuel g b s = Some tr ->
      (forall i j ti tj, (i <= j)%nat ->
         nth_error (states (entry b s) tr) i = Some ti ->
         nth_error (states (entry b s) tr) j = Some tj ->
         no_retreat ti tj)
      /\ (forall r,
            (length (filter (rises is_attacked r) tr) <= 1)%nat
            /\ (length (filter (rises is_compromised r) tr) <= 1)%nat
            /\ filter (falls is_attacked r) tr = []
            /\ filter (falls is_compromised r) tr = []).
Proof.
  intros Hd Hu. split; [apply trial_trace_terminates|].
  intros fuel tr Ht.
  destruct (@trial_trace_sound random g fuel b s tr Hd Hu Ht) as [Hc Hok].
  split.
  - intros i j ti tj Hij Hi Hj.
    refine (proj2 (@run_between random g (fun _ => True) no_retreat
                     _ _ _ _ _ Hc Hok i j ti tj Hij Hi Hj I)).
    + intros t r. tauto.
    + intros t1 t2 t3 H1 H2 r. destruct (H1 r), (H2 r). split; auto.
    + intros st Hst _. split; trivial.
      now apply (@step_no_retreat random g).
  - intro r.
    assert (Hstep : forall st, In st tr ->
              no_retreat (before st) (after st)).
    { intros st Hin. rewrite Forall_forall in Hok.
      apply (@step_no_retreat random g). now apply Hok. }
    destruct (@rises_at_most_once is_attacked r tr _ Hc) as [A1 A2].
    { intros st Hin. apply (Hstep st Hin r). }
    destruct (@rises_at_most_once is_compromised r tr _ Hc) as [C1 C2].
    { intros st Hin. apply (Hstep st Hin r). }
    repeat split; trivial.
    + destruct (is_attacked (objs (state (entry b s)) r)); lia.
    + destruct (is_compromised (objs (state (entry b s)) r)); lia.
Qed.

Lemma stopped_cases (t : Trial) :
  stopped g t <->
  check_trial_conditions g (attack_budget t) = false
  \/ existsb (fun node => negb (is_compromised (objs (state t) node)))
       (nodes g) = false.
Proof.
  unfold stopped, Spec.continuation. rewrite andb_false_iff. split.
  - intros [H|[H|H]]; auto. left. unfold check_trial_conditions.
    now rewrite H.
  - intros [H|H]; auto.
Qed.

Lemma deduction_bound (b : Q) :
  (b - inject_Z (calc_direct_attack_budget b) <= 0
   \/ b - inject_Z (calc_direct_attack_budget b) <= b)%Q.
Proof.
  unfold calc_direct_attack_budget.
  destruct (Qceiling_bounds ((5 # 100) * b)) as [_ Hhi].
  destruct (Qlt_le_dec b 0); [left|right]; lra.
Qed.

Lemma all_compromised (h : heap) (n : ref) :
  existsb (fun node => negb (is_compromised (h node))) (nodes g) = false ->
  In n (nodes g) -> is_compromised (h n) = true.
Proof.
  intros H Hn.
  destruct (is_compromised (h n)) eqn:E; trivial.
  assert (Ht : existsb (fun node => negb (is_compromised (h node)))
                 (nodes g) = true).
  { apply existsb_exists. exists n. rewrite E. auto. }
  congruence.
Qed.

(** Once the predicate fails, a step attacks nobody and leaves it
    failing. *)
Lemma step_stopped (st : Step) :
  (forall r n, In n (neighbors g r) -> In n (nodes g)) ->
  step_ok random g st -> stopped g (before st) ->
  stopped g (after st)
  /\ forall r, is_attacked (objs (state (after st)) r)
               = is_attacked (objs (state (before st)) r).
Proof.
  intros Hwf Hok Hs. apply stopped_cases in Hs. rewrite stopped_cases.
  unfold step_ok in Hok. destruct (event st) as [|n|c|c x].
  - destruct Hok as [Hst Hb]. rewrite Hst, Hb. split; trivial.
    destruct Hs as [Hs|Hs]; auto. left.
    eapply check_trial_conditions_stays_false; [exact Hs|].
    apply deduction_bound.
  - destruct Hok as (Hg & Ha & Hc & ->). simpl.
    destruct (direct_attack_objs random (state (before st)) n)
      as (p & E & _).
    split.
    + destruct Hs as [Hs|Hs]; auto.
      pose proof (all_compromised _ n Hs Hg). congruence.
    + intro r. rewrite E. simpl. unfold update.
      destruct (Nat.eqb r n) eqn:En; trivial.
      apply Nat.eqb_eq in En. now subst.
  - destruct Hok as (_ & _ & Hst & Hb). rewrite Hst, Hb. auto.
  - destruct Hok as (Hk & Hx & _ & _ & Hc & _). exfalso.
    destruct Hs as [Hs|Hs]; [congruence|].
    pose proof (all_compromised _ x Hs (Hwf _ _ Hx)). congruence.
Qed.

(** C8. A trial started with no node compromised ends, and from any
    state of it in which the continuation predicate fails (as
    [check_trial_conditions] computes it, or as specified: ledger not
    positive or no uncompromised node left), every later state has the
    same attacked nodes and the predicate still fails there. *)
Theorem no_new_attack_once_stopped (b : Q) (s : State) :
  well_formed g -> uncompromised (objs s) ->
  (exists fuel0, forall fuel, (fuel0 <= fuel)%nat ->
     exists tr, trial_trace random fuel g b s = Some tr)
  /\ forall fuel tr,
      trial_trace random fuel g b s = Some tr ->
      forall i j ti tj, (i <= j)%nat ->
        nth_error (states (entry b s) tr) i = Some ti ->
        nth_error (states (entry b s) tr) j = Some tj ->
        stopped g ti ->
        stopped g tj
        /\ forall r, is_attacked (objs (state tj) r)
                     = is_attacked (objs (state ti) r).
Proof.
  intros [Hd Hwf] Hu. split; [apply trial_trace_terminates|].
  intros fuel tr Ht.
  destruct (@trial_trace_sound random g fuel b s tr Hd Hu Ht) as [Hc Hok].
  intros i j ti tj Hij Hi Hj Hs.
  refine (@run_between random g (stopped g)
            (fun t t' => forall r, is_attacked (objs (state t') r)
                                   = is_attacked (objs (state t) r))
            _ _ _ _ _ Hc Hok i j ti tj Hij Hi Hj Hs).
  - reflexivity.
  - intros t1 t2 t3 H1 H2 r. now rewrite H2, H1.
  - intros st Hst Hp. now apply step_stopped.
Qed.

End Monotone.

(** ** Compromise resolution *)

Section Resolution.
Import NetGen Sim.
Variable random : nat -> Q.
Variable g : Graph.












End Resolution.

Section ResolvedOnce.
Import NetGen Sim.
Variable random : nat -> Q.
Variable g : Graph.







End ResolvedOnce.

Section Thresholds.
Import NetGen Sim.
Variable random : nat -> Q.
Variable g : Graph.





End Thresholds.

(** ** Budgets the specification calls invalid *)

Section InvalidBudgets.
Import NetGen Sim.
Variable random : nat -> Q.

Lemma negative_attack_budget_spent (b : Q) :
  (b < 0)%Q -> (b - inject_Z (calc_direct_attack_budget b) <= 0)%Q.
Proof.
  intro Hb. unfold calc_direct_attack_budget.
  destruct (Qceiling_bounds ((5 # 100) * b)) as [_ Hhi]. lra.
Qed.

Lemma trial_loop_stopped (fuel : nat) (g : Graph) (t : Trial) :
  (attack_budget t <= 0)%Q -> trial_loop random fuel g t = Some t.
Proof.
  intro Hb.
  assert (E : check_trial_conditions g (attack_budget t) = false).
  { unfold check_trial_conditions.
    apply andb_false_iff. left. now apply Qltb_ge. }
  destruct fuel; simpl; now rewrite E.
Qed.

(** C6 (as amended). A negative defense budget and a negative attack
    budget are not rejected: [assign_defense_values] and
    [assign_attack_values] return normally and leave every node as it
    was, and so does the allocation of a network; the trial then runs
    with the negative budget and returns the fraction left by its direct
    phase without a single pass of its loop. *)
Theorem negative_budgets_pass_unchanged (g : Graph) (l : list ref)
    (h : heap) (defense_budget : Z) (attack_budget : Q) :
  (defense_budget < 0)%Z -> (attack_budget < 0)%Q ->
  assign_defense_values l defense_budget h = Ok h
  /\ assign_attack_values l attack_budget h = Ok h
  /\ generate_initial_network g defense_budget attack_budget h = Ok h
  /\ forall fuel s,
       deg_deg_trial random fuel g attack_budget s
       = Some (frac_compromised g
                 (objs (snd (deg_deg_initial_attack random g
                               attack_budget s))),
               snd (deg_deg_initial_attack random g attack_budget s)).
Proof.
  intros Hd Ha.
  assert (D : forall l, assign_defense_values l defense_budget h = Ok h).
  { intro l0. unfold assign_defense_values.
    destruct (Z.of_nat (length l0) <? defense_budget)%Z eqn:E.
    - apply Z.ltb_lt in E. lia.
    - now rewrite range_nonpos by lia. }
  assert (A : forall l, assign_attack_values l attack_budget h = Ok h).
  { intro l0. unfold assign_attack_values.
    rewrite range_nonpos; trivial.
    apply calc_direct_attack_budget_nonpos. now apply Qlt_le_weak. }
  split; [apply D|]. split; [apply A|]. split.
  - unfold generate_initial_network. rewrite D. simpl. apply A.
  - intros fuel s. unfold deg_deg_trial, deg_deg_initial_attack.
    rewrite trial_loop_stopped; trivial.
    simpl. now apply negative_attack_budget_spent.
Qed.

End InvalidBudgets.

(** ** The code on the example networks *)

Section Evaluation.
Import NetGen Sim Examples.

(** C6 as the specification states it fails: budgets of -1 are accepted
    by both allocation functions and by the allocation of a network, and
    the trial returns a fraction. *)
Lemma negative_budgets_not_rejected :
  ~ rejects (assign_defense_values [0%nat] (-1) one_node_heap)
  /\ ~ rejects (assign_attack_values [0%nat] (-1 # 1) one_node_heap)
  /\ ~ rejects (generate_initial_network one_node (-1) (-1 # 1)
                  one_node_heap)
  /\ exists q s,
       deg_deg_trial always_hit 0 one_node (-1 # 1)
         {| objs := one_node_heap; calls := 0 |} = Some (Ok q, s).
Proof.
  repeat split; try (intros [e H]; discriminate H).
  eexists. eexists. reflexivity.
Qed.


(** C2 (the code departs from the specification). On the path 0 - 1 - 2 with
    attack budget 40, nodes 1 (centrality 1) and 0 (centrality 1/2) are
    attacked directly and queued in that order; the first pass of the
    loop removes node 0, the lowest-ranked node of the queue, while
    node 1 is still in it. *)
Theorem first_pop_takes_lowest_ranked :
  trial_trace always_hit 100 path3 40 path3_start = Some path3_trace
  /\ exists st,
       nth_error path3_trace 3 = Some st
       /\ targets (before st) = [1; 0]%nat
       /\ event st = Popped 0%nat
       /\ targets (after st) = [1%nat]
       /\ (key (objs (state (before st))) 0%nat
           < key (objs (state (before st))) 1%nat)%Q.
Proof.
  split; [vm_compute; reflexivity|].
  eexists. split; [vm_compute; reflexivity|].
  repeat split.
Qed.

(** Every pop takes the last element of the list, whatever its rank. *)
Lemma popped_is_last (random : nat -> Q) (g : Graph) (st : Step)
    (c : ref) :
  step_ok random g st -> event st = Popped c ->
  targets (before st) = targets (after st) ++ [c].
Proof.
  unfold step_ok. intros H E. rewrite E in H.
  destruct H as (_ & Hp & _). now apply pop_last.
Qed.

(** C5 (the code departs from the specification). On the one-node network an
    attack budget of 40 asks for two direct targets and
    [assign_attack_values] raises [IndexError] on the second; no trial
    runs. *)
Theorem one_node_allocation_overruns :
  calc_direct_attack_budget 40 = 2%Z
  /\ assign_attack_values (sort_by_centrality one_node one_node_heap) 40
       one_node_heap = Raise IndexError
  /\ generate_initial_network one_node 0 40 one_node_heap
     = Raise IndexError.
Proof. repeat split. Qed.

(** The same for every budget over 20, whatever the defense budget. *)
Lemma one_node_allocation_overruns_over_20 (defense_budget : Z)
    (attack_budget : Q) (h : heap) :
  (20 < attack_budget)%Q ->
  generate_initial_network one_node defense_budget attack_budget h
  = Raise IndexError.
Proof.
  intro Hb. unfold generate_initial_network.
  rewrite assign_defense_values_ok. simpl.
  apply assign_attack_values_overrun.
  change (1 < calc_direct_attack_budget attack_budget)%Z.
  assert (H : (1 < calc_direct_attack_budget attack_budget)%Z).
  { unfold calc_direct_attack_budget.
    destruct (Qceiling_bounds ((5 # 100) * attack_budget)) as [_ Hhi].
    rewrite Zlt_Qlt. change (inject_Z 1) with 1%Q. lra. }
  exact H.
Qed.

(** Where C5 holds.  On the one-node network, once its node is flagged
    and the direct budget is 1, the trial draws once, attacks nobody else
    and returns 0 or 1. *)
Lemma one_node_trial (random : nat -> Q) (b : Q) (h : heap)
    (n : nat) :
  calc_direct_attack_budget b = 1%Z ->
  is_attacked (h 0%nat) = true ->
  forall fuel, (1 <= fuel)%nat ->
    exists q s',
      deg_deg_trial random fuel one_node b
        {| objs := h; calls := n |} = Some (Ok q, s')
      /\ (q = 0 # 1 \/ q = 1 # 1)
      /\ calls s' = S n.
Proof.
  intros Hcalc Ha [|fuel] Hf; [lia|].
  unfold deg_deg_trial, deg_deg_initial_attack. rewrite Hcalc.
  cbn [nodes one_node filter objs]. rewrite Ha.
  cbn [sorted_desc fold_right insert_desc fold_left].
  destruct (direct_attack_objs random {| objs := h; calls := n |} 0%nat)
    as (p & E & _).
  rewrite E. cbn [objs calls].
  set (h1 := update h 0%nat (set_is_compromised (Qltb (random n) p))).
  assert (Hfrac : exists q,
            frac_compromised one_node h1 = Ok q /\ (q = 0 # 1 \/ q = 1 # 1)).
  { unfold frac_compromised, number_of_nodes, num_compromised.
    cbn [nodes one_node length filter].
    destruct (is_compromised (h1 0%nat)); cbn [length]; eauto. }
  destruct Hfrac as (q & Hq & Hq01). exists q.
  cbn [trial_loop attack_budget targets length Nat.ltb Nat.leb].
  destruct (check_trial_conditions one_node (b - inject_Z 1))
    eqn:Ek; cbn [andb].
  - cbn [pop rev app state targets attack_budget spread neighbors
         one_node objs].
    assert (Hdone : forall t, targets t = [] ->
              trial_loop random fuel one_node t = Some t).
    { intros t Ht. destruct fuel; cbn [trial_loop]; rewrite Ht;
        cbn [length Nat.ltb Nat.leb]; now rewrite andb_false_r. }
    assert (Hspread : forall t, spread random one_node 0%nat t = t).
    { intro t. unfold spread.
      destruct (is_compromised (objs (state t) 0%nat)); reflexivity. }
    rewrite Hspread, Hdone by reflexivity. cbn [state objs].
    rewrite Hq. eexists. split; [reflexivity|auto].
  - cbn [state objs]. rewrite Hq. eexists. split; [reflexivity|auto].
Qed.

Lemma one_node_small_budget (random : nat -> Q) (defense_budget : Z)
    (attack_budget : Q) (h : heap) (n : nat) :
  (0 < attack_budget)%Q -> (attack_budget <= 20)%Q ->
  exists h',
    generate_initial_network one_node defense_budget attack_budget h
    = Ok h'
    /\ forall fuel, (1 <= fuel)%nat ->
         exists q s',
           deg_deg_trial random fuel one_node attack_budget
             {| objs := h'; calls := n |} = Some (Ok q, s')
           /\ (q = 0 # 1 \/ q = 1 # 1)
           /\ calls s' = S n.
Proof.
  intros Hpos Hle.
  assert (Hcalc : calc_direct_attack_budget attack_budget = 1%Z).
  { unfold calc_direct_attack_budget. apply Qceiling_unique.
    - change (inject_Z 1) with 1%Q. lra.
    - change (inject_Z 1) with 1%Q. lra. }
  unfold generate_initial_network.
  rewrite assign_defense_values_ok. cbn [bind].
  rewrite assign_attack_values_ok
    by (rewrite Hcalc; unfold sort_by_centrality;
        rewrite sorted_desc_length; simpl; lia).
  rewrite Hcalc. eexists. split; [reflexivity|].
  apply one_node_trial; trivial.
Qed.

End Evaluation.

(** ** The theorems at work on the example networks *)

Section Witnesses.
Import NetGen Sim Examples.

Lemma path3_nodes_distinct : NoDup (nodes path3).
Proof.
  repeat constructor; simpl; intuition discriminate.
Defined.

Lemma path3_well_formed : well_formed path3.
Proof.
  split; [exact path3_nodes_distinct|].
  intros [|[|[|r]]] n; simpl; intuition (subst; auto).
Defined.

Lemma path3_start_uncompromised : uncompromised (objs path3_start).
Proof. intros [|[|[|r]]]; reflexivity. Defined.

Lemma path3_short_start_uncompromised :
  uncompromised (objs path3_short_start).
Proof. intros [|[|[|r]]]; reflexivity. Defined.

Lemma path3_trace_runs :
  trial_trace always_hit 100 path3 40 path3_start = Some path3_trace.
Proof. vm_compute. reflexivity. Defined.

Lemma path3_short_trace_runs :
  trial_trace always_hit 100 path3 1 path3_short_start
  = Some path3_short_trace.
Proof. vm_compute. reflexivity. Defined.

Lemma assign_defense_values_top_ranked_witness :
  NoDup (sort_by_centrality path3 path3_heap)
  /\ ranked path3_heap (sort_by_centrality path3 path3_heap)
  /\ (0 <= 2)%Z
  /\ exists h1,
       assign_defense_values (sort_by_centrality path3 path3_heap) 2
         path3_heap = Ok h1
       /\ Z.of_nat (length (defended h1
                              (sort_by_centrality path3 path3_heap)))
          = Z.min 2 (Z.of_nat (length (sort_by_centrality path3
                                         path3_heap))).
Proof.
  assert (Hd : NoDup (sort_by_centrality path3 path3_heap)).
  { apply sorted_desc_NoDup. exact path3_nodes_distinct. }
  assert (Hr : ranked path3_heap (sort_by_centrality path3 path3_heap)).
  { apply sorted_desc_ranked. }
  assert (Hu : forall r, In r (sort_by_centrality path3 path3_heap) ->
                 defense_value (path3_heap r) = 0%Z).
  { intros r _. reflexivity. }
  assert (Hb : (0 <= 2)%Z) by lia.
  split; [exact Hd|]. split; [exact Hr|]. split; [exact Hb|].
  destruct (@assign_defense_values_top_ranked
              (sort_by_centrality path3 path3_heap) path3_heap 2
              Hd Hr Hu Hb) as (h1 & E & Hn & _).
  exists h1. split; [exact E|exact Hn].
Defined.

Lemma calc_direct_attack_budget_binary64_ceiling_witness :
  (0 <= 75 < 2 ^ 53)%Z
  /\ exists k : Z,
       Binary64.calc_direct_attack_budget 75 = Some k
       /\ ((5 # 100) * inject_Z 75 <= inject_Z k)%Q
       /\ k = ((75 + 19) / 20)%Z.
Proof.
  assert (H : (0 <= 75 < 2 ^ 53)%Z) by (split; [lia|reflexivity]).
  split; [exact H|].
  destruct (@calc_direct_attack_budget_binary64_ceiling 75 H)
    as (k & E & Hle & _ & Ek & _).
  exists k. split; [exact E|]. split; [exact Hle|exact Ek].
Defined.

Lemma negative_budgets_pass_unchanged_witness :
  (-1 < 0)%Z /\ (-1 # 1 < 0)%Q
  /\ generate_initial_network one_node (-1) (-1 # 1) one_node_heap
     = Ok one_node_heap.
Proof.
  assert (Hd : (-1 < 0)%Z) by lia.
  assert (Ha : (-1 # 1 < 0)%Q) by (unfold Qlt; simpl; lia).
  split; [exact Hd|]. split; [exact Ha|].
  exact (proj1 (proj2 (proj2
           (@negative_budgets_pass_unchanged always_hit one_node
              [0%nat] one_node_heap (-1) (-1 # 1) Hd Ha)))).
Defined.

Lemma attack_state_never_retreats_witness :
  NoDup (nodes path3) /\ uncompromised (objs path3_start)
  /\ trial_trace always_hit 100 path3 40 path3_start = Some path3_trace
  /\ forall r,
       (length (filter (rises is_attacked r) path3_trace) <= 1)%nat
       /\ (length (filter (rises is_compromised r) path3_trace) <= 1)%nat
       /\ filter (falls is_attacked r) path3_trace = []
       /\ filter (falls is_compromised r) path3_trace = [].
Proof.
  split; [exact path3_nodes_distinct|].
  split; [exact path3_start_uncompromised|].
  split; [exact path3_trace_runs|].
  exact (proj2 (proj2 (@attack_state_never_retreats always_hit path3 40
                         path3_start path3_nodes_distinct
                         path3_start_uncompromised)
                  100%nat path3_trace path3_trace_runs)).
Defined.

Lemma no_new_attack_once_stopped_witness :
  let sts := states (entry 1 path3_short_start) path3_short_trace in
  let ti := nth 1 sts (entry 1 path3_short_start) in
  let tj := nth 2 sts (entry 1 path3_short_start) in
  well_formed path3 /\ uncompromised (objs path3_short_start)
  /\ trial_trace always_hit 100 path3 1 path3_short_start
     = Some path3_short_trace
  /\ (1 <= 2)%nat
  /\ nth_error sts 1 = Some ti /\ nth_error sts 2 = Some tj
  /\ stopped path3 ti
  /\ stopped path3 tj
  /\ forall r, is_attacked (objs (state tj) r)
               = is_attacked (objs (state ti) r).
Proof.
  intros sts ti tj.
  assert (Hij : (1 <= 2)%nat) by lia.
  assert (Hi : nth_error sts 1 = Some ti) by (vm_compute; reflexivity).
  assert (Hj : nth_error sts 2 = Some tj) by (vm_compute; reflexivity).
  assert (Hs : stopped path3 ti) by (left; vm_compute; reflexivity).
  split; [exact path3_well_formed|].
  split; [exact path3_short_start_uncompromised|].
  split; [exact path3_short_trace_runs|].
  split; [exact Hij|]. split; [exact Hi|]. split; [exact Hj|].
  split; [exact Hs|].
  exact (proj2 (@no_new_attack_once_stopped always_hit path3 1
                  path3_short_start path3_well_formed
                  path3_short_start_uncompromised)
           100%nat path3_short_trace path3_short_trace_runs
           1%nat 2%nat ti tj Hij Hi Hj Hs).
Defined.

Lemma ledger_never_negative_witness :
  (0 <= 40)%Z
  /\ trial_trace always_hit 100 path3 (inject_Z 40) path3_start
     = Some path3_trace
  /\ Forall (fun t => (0 <= attack_budget t)%Q)
       (states (entry (inject_Z 40) path3_start) path3_trace).
Proof.
  assert (Hb : (0 <= 40)%Z) by lia.
  split; [exact Hb|]. split; [exact path3_trace_runs|].
  exact (proj2 (@ledger_never_negative always_hit path3 40 path3_start Hb)
           100%nat path3_trace path3_trace_runs).
Defined.


End Witnesses.

(** ** More about allocation *)

Section Ranking.
Import NetGen.
Variable h : heap.

Lemma insert_desc_perm (x : ref) (l : list ref) :
  Permutation (x :: l) (insert_desc h x l).
Proof.
  induction l as [|y l IH]; simpl; [apply Permutation_refl|].
  destruct (Qltb (key h x) (key h y)); [|apply Permutation_refl].
  eapply Permutation_trans; [apply perm_swap|]. now apply perm_skip.
Qed.

Lemma sorted_desc_perm (l : list ref) : Permutation l (sorted_desc h l).
Proof.
  induction l as [|x l IH]; simpl; [constructor|].
  eapply Permutation_trans; [|apply insert_desc_perm]. now apply perm_skip.
Qed.

Lemma insert_desc_same_score (c : Q) (x : ref) (l : list ref) :
  filter (fun r => Qeq_bool (key h r) c) (insert_desc h x l)
  = filter (fun r => Qeq_bool (key h r) c) (x :: l).
Proof.
  induction l as [|y l IH]; trivial.
  cbn [insert_desc]. destruct (Qltb (key h x) (key h y)) eqn:E; trivial.
  cbn [filter] in *. rewrite IH.
  destruct (Qeq_bool (key h y) c) eqn:Ey; trivial.
  destruct (Qeq_bool (key h x) c) eqn:Ex; trivial.
  apply Qeq_bool_iff in Ex, Ey. apply Qltb_lt in E. exfalso. lra.
Qed.

(** X1. [sort_by_centrality] is a stable sort of [graph.nodes] by
    decreasing centrality: it returns the same nodes, each as often as
    the graph lists it, ranked, and nodes of equal centrality stay in the
    order of [graph.nodes]. *)
Theorem sort_by_centrality_stable (g : Graph) :
  Permutation (nodes g) (sort_by_centrality g h)
  /\ ranked h (sort_by_centrality g h)
  /\ forall c : Q,
       filter (fun r => Qeq_bool (key h r) c) (sort_by_centrality g h)
       = filter (fun r => Qeq_bool (key h r) c) (nodes g).
Proof.
  unfold sort_by_centrality.
  split; [apply sorted_desc_perm|]. split; [apply sorted_desc_ranked|].
  intro c. induction (nodes g) as [|x l IH]; trivial.
  cbn [sorted_desc fold_right]. rewrite insert_desc_same_score.
  cbn [filter]. unfold sorted_desc in IH. now rewrite IH.
Qed.

End Ranking.

Section AllocationEffects.
Import NetGen.

Lemma firstn_clamped (l : list ref) (b : Z) :
  firstn (Z.to_nat (Z.min b (Z.of_nat (length l)))) l
  = firstn (Z.to_nat b) l.
Proof.
  destruct (Z.le_gt_cases b (Z.of_nat (length l))) as [H|H].
  - now rewrite Z.min_l.
  - rewrite Z.min_r by lia. rewrite Nat2Z.id.
    rewrite firstn_all. symmetry. apply firstn_all2. lia.
Qed.

(** X2. [assign_defense_values] never raises, whatever the budget
    (negative, or larger than the list): the first [defense_budget] nodes
    of the list, all of them when there are fewer, get
    [defense_value = 1], every other object is left as it was, and no
    field other than [defense_value] changes. *)
Theorem assign_defense_values_only_defends (l : list ref) (b : Z)
    (h : heap) :
  exists h',
    assign_defense_values l b h = Ok h'
    /\ (forall r, In r (firstn (Z.to_nat b) l) ->
          defense_value (h' r) = 1%Z)
    /\ (forall r, ~ In r (firstn (Z.to_nat b) l) -> h' r = h r)
    /\ (forall r,
          name (h' r) = name (h r)
          /\ attack_value (h' r) = attack_value (h r)
          /\ centrality_value (h' r) = centrality_value (h r)
          /\ is_attacked (h' r) = is_attacked (h r)
          /\ is_compromised (h' r) = is_compromised (h r)).
Proof.
  rewrite assign_defense_values_ok, firstn_clamped.
  eexists. split; [reflexivity|]. split; [|split].
  - intros r Hr.
    apply (fold_update_sets (fun x => defense_value x = 1%Z)); trivial.
  - intros r Hr. now apply fold_update_notin.
  - intro r. repeat split; now apply fold_update_keeps.
Qed.

(** X3. [assign_attack_values] raises [IndexError] exactly when the
    direct attack budget [ceil(0.05 * attack_budget)] exceeds the number
    of nodes it is given; there is no clamp as in
    [assign_defense_values]. *)
Theorem assign_attack_values_raises_iff (l : list ref) (b : Q) (h : heap) :
  assign_attack_values l b h = Raise IndexError
  <-> (Z.of_nat (length l) < calc_direct_attack_budget b)%Z.
Proof.
  split.
  - intro H.
    destruct (Z.lt_ge_cases (Z.of_nat (length l))
                (calc_direct_attack_budget b)) as [Hlt|Hge]; trivial.
    rewrite assign_attack_values_ok in H by lia. discriminate.
  - apply assign_attack_values_overrun.
Qed.

(** The body of the loop of [assign_attack_values]. *)
Lemma mark_same (h : heap) (r : ref) :
  update (update h r (set_attack_value 1)) r (set_is_attacked true) r
  = set_is_attacked true (set_attack_value 1 (h r)).
Proof. now rewrite !update_same. Qed.

Lemma mark_other (h : heap) (r r' : ref) :
  r' <> r ->
  update (update h r (set_attack_value 1)) r (set_is_attacked true) r'
  = h r'.
Proof. intro H. now rewrite !update_other. Qed.

Lemma fold_mark_notin (l : list ref) (h : heap) (r : ref) :
  ~ In r l ->
  fold_left
    (fun h r =>
       update (update h r (set_attack_value 1)) r (set_is_attacked true))
    l h r = h r.
Proof.
  revert h. induction l as [|x l IH]; intros h Hr; simpl; trivial.
  rewrite IH by (simpl in Hr; tauto).
  apply mark_other. simpl in Hr. intro; subst; tauto.
Qed.

Lemma fold_mark_keeps (A : Type) (proj : Node -> A) (l : list ref)
    (h : heap) (r : ref) :
  (forall x, proj (set_is_attacked true (set_attack_value 1 x)) = proj x) ->
  proj (fold_left
          (fun h r =>
             update (update h r (set_attack_value 1)) r
               (set_is_attacked true))
          l h r) = proj (h r).
Proof.
  intro Hf. revert h. induction l as [|x l IH]; intros h; simpl; trivial.
  rewrite IH. destruct (Nat.eq_dec r x) as [->|Hne].
  - rewrite mark_same. apply Hf.
  - now rewrite mark_other.
Qed.

Lemma fold_mark_sets (P : Node -> Prop) (l : list ref) (h : heap)
    (r : ref) :
  (forall x, P (set_is_attacked true (set_attack_value 1 x))) ->
  In r l ->
  P (fold_left
       (fun h r =>
          update (update h r (set_attack_value 1)) r (set_is_attacked true))
       l h r).
Proof.
  intro HP. revert h. induction l as [|x l IH]; intros h Hr; simpl.
  - destruct Hr.
  - destruct (in_dec Nat.eq_dec r l) as [Hin|Hout].
    + now apply IH.
    + rewrite fold_mark_notin by trivial.
      destruct Hr as [->|Hr]; [|tauto]. rewrite mark_same. apply HP.
Qed.

(** X4. When the direct attack budget [k = ceil(0.05 * attack_budget)]
    does not exceed the number of nodes, [assign_attack_values] flags the
    first [k] nodes of the list, and only them: they get
    [is_attacked = True] and [attack_value = 1]; every other object is
    left as it was, and no defense value, centrality or [is_compromised]
    changes: nothing is resolved at allocation. *)
Theorem assign_attack_values_flags_top (l : list ref) (b : Q) (h : heap) :
  (calc_direct_attack_budget b <= Z.of_nat (length l))%Z ->
  exists h',
    assign_attack_values l b h = Ok h'
    /\ (forall r,
          In r (firstn (Z.to_nat (calc_direct_attack_budget b)) l) ->
          is_attacked (h' r) = true /\ attack_value (h' r) = 1%Z)
    /\ (forall r,
          ~ In r (firstn (Z.to_nat (calc_direct_attack_budget b)) l) ->
          h' r = h r)
    /\ (forall r,
          name (h' r) = name (h r)
          /\ defense_value (h' r) = defense_value (h r)
          /\ centrality_value (h' r) = centrality_value (h r)
          /\ is_compromised (h' r) = is_compromised (h r)).
Proof.
  intro Hk. rewrite assign_attack_values_ok by trivial.
  eexists. split; [reflexivity|]. split; [|split].
  - intros r Hr.
    apply (fold_mark_sets
             (fun x => is_attacked x = true /\ attack_value x = 1%Z));
      auto.
  - intros r Hr. now apply fold_mark_notin.
  - intro r. repeat split; now apply fold_mark_keeps.
Qed.

(** X5. On int budgets of at most 53 bits the direct attack budget, as
    the code computes it in binary64, grows with the attack budget, is
    at least 1 for every positive budget and is 0 for the budget 0: a
    trial with a positive budget always has a direct target. *)
Theorem calc_direct_attack_budget_monotone (b b' : Z) :
  (0 <= b <= b')%Z -> (b' < 2 ^ 53)%Z ->
  exists k k' : Z,
    Binary64.calc_direct_attack_budget b = Some k
    /\ Binary64.calc_direct_attack_budget b' = Some k'
    /\ (k <= k')%Z
    /\ ((0 < b)%Z -> (1 <= k)%Z)
    /\ (b = 0%Z -> k = 0%Z).
Proof.
  intros Hb Hb'. exists ((b + 19) / 20)%Z, ((b' + 19) / 20)%Z.
  split; [apply binary64_twentieth; lia|].
  split; [apply binary64_twentieth; lia|].
  pose proof (twentieth_bounds b) as B. pose proof (twentieth_bounds b') as B'.
  split; [lia|]. split; [lia|]. intros ->. reflexivity.
Qed.

End AllocationEffects.

(** ** More about the trial *)

Section TrialEffects.
Import NetGen Sim.
Variable random : nat -> Q.

Lemma same_but_flags_refl (h : heap) : same_but_flags h h.
Proof. intro r. repeat split. Qed.

Lemma same_but_flags_trans (h1 h2 h3 : heap) :
  same_but_flags h1 h2 -> same_but_flags h2 h3 -> same_but_flags h1 h3.
Proof.
  intros H1 H2 r. destruct (H1 r) as (A1 & A2 & A3 & A4).
  destruct (H2 r) as (B1 & B2 & B3 & B4).
  repeat split; congruence.
Qed.

Lemma resolve_flags (n : ref) (p : Q) (s : State) :
  same_but_flags (objs s) (objs (resolve random n p s)).
Proof.
  intro r. unfold resolve. simpl. unfold update.
  destruct (Nat.eqb r n) eqn:E; [|repeat split].
  apply Nat.eqb_eq in E. subst. repeat split.
Qed.

Lemma direct_attack_flags (s : State) (n : ref) :
  same_but_flags (objs s) (objs (direct_attack random s n)).
Proof.
  unfold direct_attack.
  destruct (defense_value (objs s n) =? 1)%Z; apply resolve_flags.
Qed.

Lemma indirect_resolve_flags (c x : ref) (s : State) :
  same_but_flags (objs s) (objs (indirect_resolve random c x s)).
Proof.
  unfold indirect_resolve.
  repeat match goal with
         | |- context [if ?b then _ else _] => destruct b
         end; try apply resolve_flags. apply same_but_flags_refl.
Qed.

Lemma attack_target_flags (g : Graph) (c : ref) (t : Trial) (x : ref) :
  same_but_flags (objs (state t))
    (objs (state (attack_target random g c t x))).
Proof.
  unfold attack_target.
  destruct (check_trial_conditions g (attack_budget t)
            && negb (is_attacked (objs (state t) x)));
    [|apply same_but_flags_refl].
  cbn [state]. eapply same_but_flags_trans; [|apply indirect_resolve_flags].
  intro r. simpl. unfold update.
  destruct (Nat.eqb r x) eqn:E; [|repeat split].
  apply Nat.eqb_eq in E. subst. repeat split.
Qed.

Lemma spread_flags (g : Graph) (c : ref) (t : Trial) :
  same_but_flags (objs (state t)) (objs (state (spread random g c t))).
Proof.
  unfold spread. destruct (is_compromised (objs (state t) c));
    [|apply same_but_flags_refl].
  generalize (sorted_desc (objs (state t)) (neighbors g c)). intro l.
  revert t. induction l as [|x l IH]; intro t; simpl.
  - apply same_but_flags_refl.
  - eapply same_but_flags_trans; [apply attack_target_flags|apply IH].
Qed.

Lemma trial_loop_flags (g : Graph) (fuel : nat) (t t' : Trial) :
  trial_loop random fuel g t = Some t' ->
  same_but_flags (objs (state t)) (objs (state t')).
Proof.
  revert t. induction fuel as [|fuel IH]; intro t; simpl.
  - destruct (check_trial_conditions g (attack_budget t)
              && (0 <? length (targets t))%nat); [discriminate|].
    intro H. inversion H. apply same_but_flags_refl.
  - destruct (check_trial_conditions g (attack_budget t)
              && (0 <? length (targets t))%nat).
    2:{ intro H. inversion H. apply same_but_flags_refl. }
    destruct (pop (targets t)) as [[c rest]|]; [|discriminate].
    intro H. apply IH in H.
    eapply same_but_flags_trans; [|exact H].
    apply (spread_flags g c
             {| state := state t; attack_budget := attack_budget t;
                targets := rest |}).
Qed.

Lemma direct_phase_flags (l : list ref) (s : State) :
  same_but_flags (objs s) (objs (fold_left (direct_attack random) l s)).
Proof.
  revert s. induction l as [|n l IH]; intro s; simpl.
  - apply same_but_flags_refl.
  - eapply same_but_flags_trans; [apply direct_attack_flags|apply IH].
Qed.

(** X6. A trial writes the two flags only: whatever it returns, every
    node keeps its name, defense value, attack value and centrality.  In
    particular a node attacked in the spread keeps [attack_value = 0]:
    only allocation sets that field. *)
Theorem deg_deg_trial_writes_flags_only (g : Graph) (fuel : nat) (b : Q)
    (s s' : State) (res : result Q) :
  deg_deg_trial random fuel g b s = Some (res, s') ->
  same_but_flags (objs s) (objs s').
Proof.
  unfold deg_deg_trial, deg_deg_initial_attack.
  destruct (trial_loop random fuel g _) as [t|] eqn:E; [|discriminate].
  intro H. inversion H; subst. apply trial_loop_flags in E.
  eapply same_but_flags_trans; [|exact E]. apply direct_phase_flags.
Qed.

Lemma direct_phase_calls (l : list ref) (s : State) :
  calls (fold_left (direct_attack random) l s) = (calls s + length l)%nat.
Proof.
  revert s. induction l as [|n l IH]; intro s; simpl; [lia|].
  rewrite IH. destruct (direct_attack_objs random s n) as (p & E & _).
  rewrite E. simpl. lia.
Qed.

Lemma direct_phase_others (l : list ref) (s : State) (r : ref) :
  ~ In r l -> objs (fold_left (direct_attack random) l s) r = objs s r.
Proof.
  revert s. induction l as [|n l IH]; intros s Hr; simpl; trivial.
  rewrite IH by (simpl in Hr; tauto).
  destruct (direct_attack_objs random s n) as (p & E & _).
  rewrite E. simpl. apply update_other. simpl in Hr. intro; subst; tauto.
Qed.

Lemma direct_phase_attacked (l : list ref) (s : State) (r : ref) :
  is_attacked (objs (fold_left (direct_attack random) l s) r)
  = is_attacked (objs s r).
Proof.
  revert s. induction l as [|n l IH]; intro s; simpl; trivial.
  rewrite IH. destruct (direct_attack_objs random s n) as (p & E & _).
  rewrite E. simpl. unfold update.
  destruct (Nat.eqb r n) eqn:En; trivial.
  apply Nat.eqb_eq in En. now subst.
Qed.

(** X7. [deg_deg_initial_attack] deducts [ceil(0.05 * attack_budget)]
    from the budget it is given, returns the flagged nodes of the graph
    ranked by decreasing centrality, draws once for each of them, and
    touches nothing else: an unflagged node is left as it was and no
    [is_attacked] changes. *)
Theorem deg_deg_initial_attack_effect (g : Graph) (b : Q) (s : State) :
  let flagged := filter (fun node => is_attacked (objs s node)) (nodes g) in
  let '((queue, ledger), s') := deg_deg_initial_attack random g b s in
  ledger = (b - inject_Z (calc_direct_attack_budget b))%Q
  /\ Permutation flagged queue
  /\ ranked (objs s) queue
  /\ calls s' = (calls s + length flagged)%nat
  /\ (forall r, ~ In r flagged -> objs s' r = objs s r)
  /\ (forall r, is_attacked (objs s' r) = is_attacked (objs s r))
  /\ same_but_flags (objs s) (objs s').
Proof.
  unfold deg_deg_initial_attack. cbv zeta.
  split; [reflexivity|]. split; [apply sorted_desc_perm|].
  split; [apply sorted_desc_ranked|].
  split; [apply direct_phase_calls|].
  split; [intros r Hr; now apply direct_phase_others|].
  split; [intro r; apply direct_phase_attacked|].
  apply direct_phase_flags.
Qed.

End TrialEffects.

Section TrialResults.
Import NetGen Sim.
Variable random : nat -> Q.
Variable g : Graph.

(** X8. On a graph without nodes [deg_deg_trial] raises
    [ZeroDivisionError], for every budget: nothing is attacked, the loop
    is not entered, and the fraction divides by
    [graph.number_of_nodes() = 0]. *)
Theorem deg_deg_trial_empty_graph (fuel : nat) (b : Q) (s : State) :
  nodes g = [] ->
  deg_deg_trial random fuel g b s = Some (Raise ZeroDivisionError, s).
Proof.
  intro Hn. unfold deg_deg_trial, deg_deg_initial_attack. rewrite Hn.
  cbn [filter sorted_desc fold_right fold_left].
  assert (E : forall t, targets t = [] ->
            trial_loop random fuel g t = Some t).
  { intros t Ht. destruct fuel; cbn [trial_loop]; rewrite Ht;
      cbn [length Nat.ltb Nat.leb]; now rewrite andb_false_r. }
  rewrite E by reflexivity. cbn [state].
  unfold frac_compromised, number_of_nodes. now rewrite Hn.
Qed.

Lemma filter_length_le (A : Type) (f : A -> bool) (l : list A) :
  (length (filter f l) <= length l)%nat.
Proof.
  induction l as [|x l IH]; simpl; trivial.
  destruct (f x); simpl; lia.
Qed.

Lemma count_over_total (k n : nat) :
  (k <= S n)%nat ->
  fraction (Z.of_nat k # Pos.of_succ_nat n)
  /\ ((Z.of_nat k # Pos.of_succ_nat n) * inject_Z (Z.of_nat (S n))
      == inject_Z (Z.of_nat k))%Q.
Proof.
  intro H. repeat split.
  - unfold Qle. simpl. lia.
  - unfold Qle. simpl. lia.
  - unfold Qeq, Qmult, inject_Z. simpl. rewrite Pos.mul_1_r. lia.
Qed.

Lemma frac_compromised_fraction (h : heap) :
  nodes g <> [] ->
  exists q,
    frac_compromised g h = Ok q
    /\ fraction q
    /\ (q * inject_Z (Z.of_nat (number_of_nodes g))
        == inject_Z (Z.of_nat (num_compromised g h)))%Q.
Proof.
  intro Hn. unfold frac_compromised, number_of_nodes, num_compromised.
  pose proof (filter_length_le (fun node => is_compromised (h node))
                (nodes g)) as Hle.
  destruct (nodes g) as [|x l] eqn:E; [congruence|].
  cbn [length] in *. eexists. split; [reflexivity|].
  now apply count_over_total.
Qed.

(** X9. On a graph with at least one node [deg_deg_trial] returns, after
    at most one pass of its loop per node plus one per half unit of
    budget left by the direct attack, a fraction between 0 and 1: the
    number of compromised nodes over the number of nodes. *)
Theorem deg_deg_trial_returns_fraction (fuel : nat) (b : Q) (s : State) :
  nodes g <> [] -> (passes g b <= fuel)%nat ->
  exists q s',
    deg_deg_trial random fuel g b s = Some (Ok q, s')
    /\ fraction q
    /\ (q * inject_Z (Z.of_nat (number_of_nodes g))
        == inject_Z (Z.of_nat (num_compromised g (objs s'))))%Q.
Proof.
  intros Hn Hf. unfold deg_deg_trial, deg_deg_initial_attack.
  match goal with
  | |- context [trial_loop random fuel g ?t0] => set (t := t0)
  end.
  assert (Hfuel : (enough_fuel t <= fuel)%nat).
  { eapply Nat.le_trans; [|exact Hf].
    unfold enough_fuel, passes, t. cbn [targets attack_budget].
    rewrite sorted_desc_length.
    pose proof (filter_length_le
                  (fun node => is_attacked (objs s node)) (nodes g)).
    lia. }
  destruct (trial_loop_terminates random g t Hfuel) as [t' Ht].
  rewrite Ht.
  destruct (frac_compromised_fraction (objs (state t')) Hn)
    as (q & Eq & Hq & Hn').
  exists q, (state t'). rewrite Eq. auto.
Qed.

End TrialResults.

Section Spread.
Import NetGen Sim.
Variable random : nat -> Q.
Variable g : Graph.

Lemma spread_steps_count (c : ref) (l : list ref) (t : Trial) :
  (length (filter is_indirect (spread_steps random g c l t))
   + Z.to_nat (Qceiling
                 (2 * attack_budget
                        (final t (spread_steps random g c l t))))
   <= Z.to_nat (Qceiling (2 * attack_budget t)))%nat.
Proof.
  revert t. induction l as [|x l IH]; intro t.
  { cbn [spread_steps filter length]. unfold final. cbn [map last]. lia. }
  cbn [spread_steps].
  destruct (check_trial_conditions g (attack_budget t)
            && negb (is_attacked (objs (state t) x))) eqn:E.
  - rewrite final_cons. cbn [filter]. unfold is_indirect at 1.
    cbn [event after length].
    specialize (IH (attack_target random g c t x)).
    apply andb_true_iff in E. destruct E as [Hk Ha].
    apply negb_true_iff in Ha.
    destruct (attack_target_fired random g c x t Hk Ha)
      as (_ & _ & _ & _ & Hb & _).
    apply check_trial_conditions_budget in Hk.
    pose proof (half_unit_spent Hk) as Hs. rewrite <- Hb in Hs. lia.
  - assert (Ht : attack_target random g c t x = t)
      by (unfold attack_target; now rewrite E).
    rewrite Ht. apply IH.
Qed.

Lemma spread_trace_count (c : ref) (t : Trial) :
  (length (filter is_indirect (spread_trace random g c t))
   + Z.to_nat (Qceiling
                 (2 * attack_budget (final t (spread_trace random g c t))))
   <= Z.to_nat (Qceiling (2 * attack_budget t)))%nat.
Proof.
  unfold spread_trace.
  destruct (is_compromised (objs (state t) c));
    [apply spread_steps_count|].
  cbn [filter length]. unfold final. cbn [map last]. lia.
Qed.

Lemma loop_trace_count (fuel : nat) (t : Trial) (tr : list Step) :
  loop_trace random fuel g t = Some tr ->
  (length (filter is_indirect tr)
   <= Z.to_nat (Qceiling (2 * attack_budget t)))%nat.
Proof.
  revert t tr. induction fuel as [|fuel IH]; intros t tr; simpl.
  - destruct (check_trial_conditions g (attack_budget t)
              && (0 <? length (targets t))%nat); [discriminate|].
    intro H. inversion H. cbn [filter length]. lia.
  - destruct (check_trial_conditions g (attack_budget t)
              && (0 <? length (targets t))%nat).
    2:{ intro H. inversion H. cbn [filter length]. lia. }
    destruct (pop (targets t)) as [[c rest]|]; [|discriminate].
    set (t1 := {| state := state t; attack_budget := attack_budget t;
                  targets := rest |}).
    destruct (loop_trace random fuel g
                (final t1 (spread_trace random g c t1))) as [tr'|] eqn:El;
      [|discriminate].
    intro H. inversion H; subst tr. clear H.
    cbn [filter]. unfold is_indirect at 1. cbn [event].
    rewrite filter_app, length_app.
    pose proof (spread_trace_count c t1) as Hs.
    pose proof (IH _ _ El) as Hl.
    change (attack_budget t1) with (attack_budget t) in Hs. lia.
Qed.

Lemma direct_trace_count (l : list ref) (t : Trial) :
  filter is_indirect (direct_trace random l t) = []
  /\ attack_budget (final t (direct_trace random l t)) = attack_budget t.
Proof.
  revert t. induction l as [|n l IH]; intro t; [now split|].
  cbn [direct_trace filter]. unfold is_indirect at 1. cbn [event].
  rewrite final_cons. cbn [after].
  destruct (IH (direct_attack_in random t n)) as [E1 E2].
  split; trivial.
Qed.

(** X10. The ledger bounds the spread: a trial makes at most as many
    indirect attacks as there are half units in the budget left after the
    direct attack, [2 * (attack_budget - ceil(0.05 * attack_budget))]
    rounded up, however large the graph. *)
Theorem indirect_attacks_bounded_by_ledger (fuel : nat) (b : Q) (s : State)
    (tr : list Step) :
  trial_trace random fuel g b s = Some tr ->
  (length (filter is_indirect tr)
   <= Z.to_nat
        (Qceiling (2 * (b - inject_Z (calc_direct_attack_budget b)))))%nat.
Proof.
  unfold trial_trace.
  set (l := filter (fun node => is_attacked (objs s node)) (nodes g)).
  set (t1 := {| state := s; attack_budget := _; targets := _ |}).
  destruct (loop_trace random fuel g (final t1 (direct_trace random l t1)))
    as [tr'|] eqn:El; [|discriminate].
  intro H. inversion H; subst tr. clear H.
  cbn [filter]. unfold is_indirect at 1. cbn [event].
  rewrite filter_app, length_app.
  destruct (direct_trace_count l t1) as [E1 E2]. rewrite E1.
  apply loop_trace_count in El. rewrite E2 in El. exact El.
Qed.


Lemma filter_length_implies (A : Type) (p q : A -> bool) (l : list A) :
  (forall x, p x = true -> q x = true) ->
  (length (filter p l) <= length (filter q l))%nat.
Proof.
  intro H. induction l as [|x l IH]; simpl; trivial.
  destruct (p x) eqn:E.
  - rewrite (H x E). simpl. lia.
  - destruct (q x); simpl; lia.
Qed.

(** X12. At the end of a trial started with no node compromised, every
    compromised node is an attacked node: a node that was never attacked
    is never counted, and the count of compromised nodes is at most the
    count of attacked ones. *)
Theorem compromised_nodes_were_attacked (fuel : nat) (b : Q) (s s' : State)
    (res : result Q) :
  NoDup (nodes g) -> uncompromised (objs s) ->
  deg_deg_trial random fuel g b s = Some (res, s') ->
  (forall r, is_compromised (objs s' r) = true ->
             is_attacked (objs s' r) = true)
  /\ (num_compromised g (objs s')
      <= length (filter (fun node => is_attacked (objs s' node))
                   (nodes g)))%nat.
Proof.
  intros Hd Hu Ht. rewrite trial_trace_agrees in Ht.
  destruct (trial_trace random fuel g b s) as [tr|] eqn:E; [|discriminate].
  simpl in Ht. inversion Ht; subst. clear Ht.
  destruct (@trial_trace_sound random g fuel b s tr Hd Hu E) as [Hc Hok].
  assert (Hf : footholds_attacked (final (entry b s) tr)).
  { apply (@run_footholds_final random g); trivial.
    intros r Hr. simpl in Hr. rewrite Hu in Hr. discriminate. }
  split; [exact Hf|]. unfold num_compromised.
  apply filter_length_implies. exact Hf.
Qed.

End Spread.

(** ** The loops around the trial *)

Section Centralities.
Import NetGen Driver.

Lemma set_centralities_cases (d : list (ref * Q)) (l : list ref)
    (h : heap) :
  match set_centralities d l h with
  | Value h' =>
      (forall r, In r l -> getitem d r = Value (centrality_value (h' r)))
      /\ (forall r, ~ In r l -> h' r = h r)
      /\ (forall r,
            name (h' r) = name (h r)
            /\ defense_value (h' r) = defense_value (h r)
            /\ attack_value (h' r) = attack_value (h r)
            /\ is_attacked (h' r) = is_attacked (h r)
            /\ is_compromised (h' r) = is_compromised (h r))
  | KeyError => exists node, In node l /\ getitem d node = KeyError
  end.
Proof.
  revert h. induction l as [|x l IH]; intro h; cbn [set_centralities].
  - repeat split; intros r []; trivial.
  - destruct (getitem d x) as [c|] eqn:E.
    2:{ exists x. split; [now left|trivial]. }
    specialize (IH (update h x (set_centrality_value c))).
    destruct (set_centralities d l (update h x (set_centrality_value c)))
      as [h'|].
    + destruct IH as (H1 & H2 & H3). split; [|split].
      * intros r Hr. destruct (in_dec Nat.eq_dec r l) as [Hin|Hout].
        { now apply H1. }
        destruct Hr as [->|Hr]; [|tauto].
        now rewrite (H2 r Hout), update_same.
      * intros r Hr. rewrite H2 by (simpl in Hr; tauto).
        apply update_other. simpl in Hr. intro; subst; tauto.
      * intro r. destruct (H3 r) as (A1 & A2 & A3 & A4 & A5).
        rewrite A1, A2, A3, A4, A5. unfold update.
        destruct (Nat.eqb r x) eqn:Er; [|repeat split].
        apply Nat.eqb_eq in Er. subst. repeat split.
    + destruct IH as (node & Hn & En). exists node. split; [now right|trivial].
Qed.

(** X13. [assign_centralities] writes into every node of the graph the
    score that [centrality_func] gives it, and changes nothing else: no
    other field, no object outside the graph.  It fails with [KeyError]
    exactly when the scores returned miss a node of the graph. *)
Theorem assign_centralities_sets_scores (g : Graph)
    (centrality_func : Graph -> list (ref * Q)) (h : heap) :
  (assign_centralities g centrality_func h = KeyError
   <-> exists node,
         In node (nodes g) /\ getitem (centrality_func g) node = KeyError)
  /\ forall h', assign_centralities g centrality_func h = Value h' ->
       (forall r, In r (nodes g) ->
          getitem (centrality_func g) r = Value (centrality_value (h' r)))
       /\ (forall r, ~ In r (nodes g) -> h' r = h r)
       /\ (forall r,
             name (h' r) = name (h r)
             /\ defense_value (h' r) = defense_value (h r)
             /\ attack_value (h' r) = attack_value (h r)
             /\ is_attacked (h' r) = is_attacked (h r)
             /\ is_compromised (h' r) = is_compromised (h r)).
Proof.
  unfold assign_centralities. cbv zeta.
  pose proof (set_centralities_cases (centrality_func g) (nodes g) h) as H.
  destruct (set_centralities (centrality_func g) (nodes g) h) as [h1|].
  - split.
    + split; [discriminate|]. intros (node & Hn & En).
      destruct H as (H1 & _). rewrite (H1 node Hn) in En. discriminate.
    + intros h' E. inversion E; subst. exact H.
  - split; [|discriminate]. split; trivial.
Qed.

End Centralities.

Section Networks.
Import NetGen Sim Driver.

Lemma generate_initial_network_cases (g : Graph) (defense_budget : Z)
    (b : Q) (h : heap) :
  match generate_initial_network g defense_budget b h with
  | Ok _ => ~ short (calc_direct_attack_budget b) g
  | Raise e => e = IndexError /\ short (calc_direct_attack_budget b) g
  end.
Proof.
  unfold generate_initial_network, short, number_of_nodes. cbv zeta.
  rewrite assign_defense_values_ok. cbn [bind].
  assert (El : length (sort_by_centrality g h) = length (nodes g))
    by apply sorted_desc_length.
  destruct (Z.lt_ge_cases (Z.of_nat (length (nodes g)))
              (calc_direct_attack_budget b)) as [Hlt|Hge].
  - rewrite assign_attack_values_overrun by (rewrite El; trivial). auto.
  - rewrite assign_attack_values_ok by (rewrite El; lia). lia.
Qed.

Lemma generate_initial_networks_cases (graphs : list Graph)
    (defense_budget : Z) (b : Q) (h : heap) :
  match generate_initial_networks graphs defense_budget b h with
  | Ok _ => Forall (fun g => ~ short (calc_direct_attack_budget b) g) graphs
  | Raise e =>
      e = IndexError /\ Exists (short (calc_direct_attack_budget b)) graphs
  end.
Proof.
  revert h. induction graphs as [|g graphs IH]; intro h;
    cbn [generate_initial_networks]; [constructor|].
  pose proof (generate_initial_network_cases g defense_budget b h) as Hg.
  destruct (generate_initial_network g defense_budget b h) as [h1|e];
    cbn [bind].
  - specialize (IH h1).
    destruct (generate_initial_networks graphs defense_budget b h1).
    + now constructor.
    + destruct IH as [-> IH]. split; trivial. now apply Exists_cons_tl.
  - destruct Hg as [-> Hg]. split; trivial. now apply Exists_cons_hd.
Qed.

(** X14. [generate_initial_networks] raises [IndexError] exactly when one
    of the graphs has fewer nodes than the direct attack budget
    [ceil(0.05 * attack_budget)], whatever the defense budget; otherwise
    it returns. *)
Theorem generate_initial_networks_raises_iff (graphs : list Graph)
    (defense_budget : Z) (b : Q) (h : heap) :
  (generate_initial_networks graphs defense_budget b h = Raise IndexError
   <-> Exists (short (calc_direct_attack_budget b)) graphs)
  /\ ((exists h', generate_initial_networks graphs defense_budget b h = Ok h')
      <-> Forall (fun g => ~ short (calc_direct_attack_budget b) g) graphs).
Proof.
  pose proof (generate_initial_networks_cases graphs defense_budget b h)
    as H.
  destruct (generate_initial_networks graphs defense_budget b h) as [h1|e].
  - split; split.
    + discriminate.
    + intro Hex. exfalso. rewrite Forall_forall in H.
      apply Exists_exists in Hex. destruct Hex as (g & Hg & Hs).
      exact (H g Hg Hs).
    + trivial.
    + eauto.
  - destruct H as [-> H]. split; split; trivial.
    + intros [h' E]. discriminate.
    + intro Hall. exfalso. rewrite Forall_forall in Hall.
      apply Exists_exists in H. destruct H as (g & Hg & Hs).
      exact (Hall g Hg Hs).
Qed.

End Networks.

Section DirectTargets.
Import NetGen Sim.

Lemma filter_all (A : Type) (p : A -> bool) (l : list A) :
  (forall x, In x l -> p x = true) -> filter p l = l.
Proof.
  induction l as [|x l IH]; intro H; simpl; trivial.
  rewrite (H x) by now left. f_equal. apply IH. intros y Hy. apply H.
  now right.
Qed.

Lemma filter_none (A : Type) (p : A -> bool) (l : list A) :
  (forall x, In x l -> p x = false) -> filter p l = [].
Proof.
  induction l as [|x l IH]; intro H; simpl; trivial.
  rewrite (H x) by now left. apply IH. intros y Hy. apply H. now right.
Qed.

Lemma filter_length_perm (A : Type) (p : A -> bool) (l l' : list A) :
  Permutation l l' -> length (filter p l) = length (filter p l').
Proof.
  induction 1; simpl; trivial.
  - destruct (p x); simpl; congruence.
  - destruct (p x), (p y); simpl; trivial.
  - congruence.
Qed.

Lemma NoDup_firstn_skipn (l : list ref) (k : nat) (r : ref) :
  NoDup l -> In r (firstn k l) -> ~ In r (skipn k l).
Proof.
  intros Hd H1 H2. rewrite <- (firstn_skipn k l) in Hd.
  apply NoDup_app_remove_l in Hd as Hd2.
  revert Hd. generalize (firstn k l) (skipn k l) H1 H2. clear.
  intros a. induction a as [|x a IH]; intros c H1 H2 Hd; [destruct H1|].
  simpl in Hd. inversion Hd; subst. destruct H1 as [->|H1].
  - apply H3. apply in_or_app. now right.
  - now apply (IH c).
Qed.

Lemma count_top (p : ref -> bool) (l : list ref) (k : nat) :
  NoDup l -> (k <= length l)%nat ->
  (forall r, In r l -> (p r = true <-> In r (firstn k l))) ->
  length (filter p l) = k.
Proof.
  intros Hd Hk Hp.
  assert (Hin : forall r, In r (firstn k l) -> In r l).
  { intros r Hr. rewrite <- (firstn_skipn k l). apply in_or_app. now left. }
  assert (Hin' : forall r, In r (skipn k l) -> In r l).
  { intros r Hr. rewrite <- (firstn_skipn k l). apply in_or_app. now right. }
  rewrite <- (firstn_skipn k l) at 1. rewrite filter_app, length_app.
  rewrite filter_all, filter_none.
  - rewrite length_firstn. simpl. lia.
  - intros r Hr. destruct (p r) eqn:E; trivial.
    apply Hp in E; [|now apply Hin'].
    exfalso. exact (@NoDup_firstn_skipn l k r Hd E Hr).
  - intros r Hr. apply Hp; auto.
Qed.

Lemma firstn_In_le (l : list ref) (j k : nat) (r : ref) :
  (j <= k)%nat -> In r (firstn j l) -> In r (firstn k l).
Proof.
  revert j k. induction l as [|x l IH]; intros j k Hjk Hr.
  - now rewrite firstn_nil in *.
  - destruct j; [destruct Hr|]. destruct k; [lia|].
    simpl in *. destruct Hr as [->|Hr]; [now left|].
    right. apply (IH j); [lia|trivial].
Qed.

(** X15. Allocation on a network whose nodes are as [Node()] left them:
    when the direct attack budget [k = ceil(0.05 * attack_budget)] is
    within the defense budget, as in every budget mapping of
    [generate_data], the nodes flagged for the direct attack are exactly
    the first [k] of the ranking, there are [k] of them, none has a lower
    centrality than an unflagged node, and each holds a defense unit: the
    direct attack on each of them is resolved against 0.7, never against
    0.9. *)
Theorem direct_targets_are_defended (g : Graph) (defense_budget : Z)
    (b : Q) (h h' : heap) :
  NoDup (nodes g) -> untouched g h ->
  (calc_direct_attack_budget b <= defense_budget)%Z ->
  generate_initial_network g defense_budget b h = Ok h' ->
  let k := Z.to_nat (calc_direct_attack_budget b) in
  let top := firstn k (sort_by_centrality g h) in
  (forall r, In r (nodes g) -> (is_attacked (h' r) = true <-> In r top))
  /\ length (filter (fun node => is_attacked (h' node)) (nodes g)) = k
  /\ (forall d u, In d top -> In u (nodes g) -> ~ In u top ->
        (centrality_value (h u) <= centrality_value (h d))%Q)
  /\ (forall r, In r top -> defense_value (h' r) = 1%Z)
  /\ (forall (random : nat -> Q) (s : State) (node : ref),
        same_but_flags h' (objs s) ->
        In node (nodes g) -> is_attacked (h' node) = true ->
        direct_attack random s node = resolve random node (7 # 10) s).
Proof.
  intros Hd Hu Hb E k top.
  pose proof (generate_initial_network_cases g defense_budget b h) as Hc.
  rewrite E in Hc. unfold short, number_of_nodes in Hc.
  assert (El : length (sort_by_centrality g h) = length (nodes g))
    by apply sorted_desc_length.
  unfold generate_initial_network in E. cbv zeta in E.
  rewrite assign_defense_values_ok in E. cbn [bind] in E.
  rewrite assign_attack_values_ok in E by (rewrite El; lia).
  injection E as Eh.
  fold k in Eh. fold top in Eh.
  set (def := firstn (Z.to_nat
                        (Z.min defense_budget
                           (Z.of_nat (length (sort_by_centrality g h)))))
                (sort_by_centrality g h)) in *.
  set (h1 := fold_left (fun h r => update h r (set_defense_value 1)) def h)
    in *.
  assert (Hatt : forall r, In r (nodes g) ->
            (is_attacked (h' r) = true <-> In r top)).
  { intros r Hr. split.
    - intro Ha. destruct (in_dec Nat.eq_dec r top) as [Hin|Hout]; trivial.
      exfalso. rewrite <- Eh in Ha.
      rewrite fold_mark_notin in Ha by trivial. unfold h1 in Ha.
      rewrite (fold_update_keeps is_attacked) in Ha by reflexivity.
      destruct (Hu r Hr) as (_ & Hf & _). congruence.
    - intro Hin. rewrite <- Eh.
      apply (fold_mark_sets (fun x => is_attacked x = true)); auto. }
  assert (Hdef : forall r, In r top -> defense_value (h' r) = 1%Z).
  { intros r Hr. rewrite <- Eh.
    rewrite (fold_mark_keeps defense_value) by reflexivity. unfold h1.
    apply (fold_update_sets (fun x => defense_value x = 1%Z));
      [reflexivity|].
    unfold def. eapply firstn_In_le; [|exact Hr]. unfold k. lia. }
  split; [exact Hatt|]. split; [|split; [|split; [exact Hdef|]]].
  - rewrite (filter_length_perm _ (sorted_desc_perm h (nodes g))).
    apply count_top.
    + apply sorted_desc_NoDup. exact Hd.
    + fold (sort_by_centrality g h). unfold k. lia.
    + intros r Hr. apply Hatt. now apply sorted_desc_In in Hr.
  - intros d u Hdt Hun Hut.
    apply (@ranked_split h k (sort_by_centrality g h)); trivial.
    + apply sorted_desc_ranked.
    + assert (Hs : In u (sort_by_centrality g h))
        by now apply sorted_desc_In.
      rewrite <- (firstn_skipn k (sort_by_centrality g h)) in Hs.
      apply in_app_or in Hs. tauto.
  - intros random s node Hs Hn Ha. unfold direct_attack.
    destruct (Hs node) as (_ & Hdv & _). rewrite Hdv.
    rewrite Hdef by now apply Hatt. reflexivity.
Qed.

End DirectTargets.

Section MonteCarlo.
Import NetGen Sim Driver.
Variable random : nat -> Q.

Lemma deg_deg_trial_cases (fuel : nat) (g : Graph) (b : Q) (s : State) :
  (passes g b <= fuel)%nat ->
  exists res s',
    deg_deg_trial random fuel g b s = Some (res, s')
    /\ match res with
       | Ok q => nodes g <> [] /\ fraction q
       | Raise e => e = ZeroDivisionError /\ nodes g = []
       end.
Proof.
  intro Hf. unfold deg_deg_trial, deg_deg_initial_attack.
  match goal with
  | |- context [trial_loop random fuel g ?t0] => set (t := t0)
  end.
  assert (Hfuel : (enough_fuel t <= fuel)%nat).
  { eapply Nat.le_trans; [|exact Hf].
    unfold enough_fuel, passes, t. cbn [targets attack_budget].
    rewrite sorted_desc_length.
    pose proof (filter_length_le
                  (fun node => is_attacked (objs s node)) (nodes g)).
    lia. }
  destruct (trial_loop_terminates random g t Hfuel) as [t' Ht].
  rewrite Ht. eexists. eexists. split; [reflexivity|].
  destruct (nodes g) as [|x l] eqn:En.
  - unfold frac_compromised, number_of_nodes. rewrite En. now split.
  - assert (Hn : nodes g <> []) by (rewrite En; discriminate).
    destruct (@frac_compromised_fraction g (objs (state t')) Hn)
      as (q & Eq & Hq & _).
    rewrite Eq. split; trivial. discriminate.
Qed.

Lemma monte_carlo_cases (fuel : nat) (graphs : list Graph) (b : Q)
    (s : State) :
  Forall (fun g => (passes g b <= fuel)%nat) graphs ->
  exists res s',
    monte_carlo graphs (deg_deg_trial random fuel) b s = Some (res, s')
    /\ match res with
       | Ok data =>
           infiltration graphs data
           /\ Forall (fun g => nodes g <> []) graphs
       | Raise e =>
           e = ZeroDivisionError /\ Exists (fun g => nodes g = []) graphs
       end.
Proof.
  intro Hf. revert s. induction Hf as [|g graphs Hg Hf IH]; intro s.
  - exists (Ok []), s. repeat split; constructor.
  - cbn [monte_carlo].
    destruct (@deg_deg_trial_cases fuel g b s Hg) as (res & s1 & E & Hres).
    rewrite E. destruct res as [q|e].
    + destruct (IH s1) as (res' & s2 & E' & Hres'). rewrite E'.
      destruct res' as [data|e'].
      * eexists. eexists. split; [reflexivity|].
        destruct Hres as [Hn Hq]. destruct Hres' as [[Hl Hd] Hns].
        repeat split; try (constructor; trivial). simpl. now rewrite Hl.
      * eexists. eexists. split; [reflexivity|].
        destruct Hres' as [-> Hex]. split; trivial.
        now apply Exists_cons_tl.
    + eexists. eexists. split; [reflexivity|].
      destruct Hres as [-> Hn]. split; trivial. now apply Exists_cons_hd.
Qed.

(** X16. [monte_carlo] with [deg_deg_trial] runs the trials one after the
    other and ends: when no graph is empty it returns one fraction
    between 0 and 1 for each graph; when a graph has no node it raises
    [ZeroDivisionError] and returns no data, not even for the graphs
    before it. *)
Theorem monte_carlo_one_fraction_per_graph (fuel : nat)
    (graphs : list Graph) (b : Q) (s : State) :
  Forall (fun g => (passes g b <= fuel)%nat) graphs ->
  (Forall (fun g => nodes g <> []) graphs ->
   exists data s',
     monte_carlo graphs (deg_deg_trial random fuel) b s
     = Some (Ok data, s')
     /\ length data = length graphs /\ Forall fraction data)
  /\ (Exists (fun g => nodes g = []) graphs ->
      exists s',
        monte_carlo graphs (deg_deg_trial random fuel) b s
        = Some (Raise ZeroDivisionError, s')).
Proof.
  intro Hf.
  destruct (@monte_carlo_cases fuel graphs b s Hf) as (res & s' & E & Hres).
  rewrite E. destruct res as [data|e].
  - destruct Hres as [[Hl Hd] Hn]. split.
    + intros _. exists data, s'. auto.
    + intro Hex. exfalso. apply Exists_exists in Hex.
      destruct Hex as (g & Hg & He). rewrite Forall_forall in Hn.
      exact (Hn g Hg He).
  - destruct Hres as [-> Hex]. split.
    + intro Hn. exfalso. apply Exists_exists in Hex.
      destruct Hex as (g & Hg & He). rewrite Forall_forall in Hn.
      exact (Hn g Hg He).
    + intros _. now exists s'.
Qed.

End MonteCarlo.

Section Data.
Import NetGen Sim Driver.

Lemma mapping_eqb_eq (k k' : Z * Z) : mapping_eqb k k' = true <-> k = k'.
Proof.
  destruct k as [a b], k' as [a' b']. unfold mapping_eqb. cbn [fst snd].
  rewrite andb_true_iff, !Z.eqb_eq. split.
  - now intros [-> ->].
  - intro H. inversion H. auto.
Qed.

(** A new key goes to the end of the dictionary. *)
Lemma dict_set_fresh (d : dict) (k : Z * Z) (v : list Q) :
  ~ In k (map fst d) -> dict_set d k v = d ++ [(k, v)].
Proof.
  induction d as [|[k' v'] d IH]; intro H; cbn [dict_set app]; trivial.
  destruct (mapping_eqb k' k) eqn:E.
  - apply mapping_eqb_eq in E. subst. simpl in H. tauto.
  - rewrite IH; trivial. simpl in H. tauto.
Qed.

Lemma generate_data_zip_truncates (f : strategy)
    (sn : list (list Graph)) (ds : list dict) (h : heap) (c : nat) :
  generate_data_zip sn ds f h c
  = generate_data_zip (firstn (length ds) sn) ds f h c.
Proof.
  revert ds c. induction sn as [|p sn IH]; intros [|d ds] c; trivial.
  cbn [length firstn generate_data_zip].
  destruct (generate_data_mappings p f h budget_mappings d c)
    as [[[d'|e] c']|]; trivial.
  now rewrite IH.
Qed.

Lemma generate_data_zip_shape (f : strategy) (sn : list (list Graph))
    (ds ds' : list dict) (h : heap) (c c' : nat) :
  generate_data_zip sn ds f h c = Some (Ok ds', c') ->
  length ds' = length ds
  /\ skipn (length sn) ds' = skipn (length sn) ds.
Proof.
  revert ds ds' c c'.
  induction sn as [|p sn IH]; intros [|d ds] ds' c c' E;
    cbn [generate_data_zip] in E; try (inversion E; subst; now split).
  destruct (generate_data_mappings p f h budget_mappings d c)
    as [[[d1|e] c1]|]; try discriminate.
  destruct (generate_data_zip sn ds f h c1) as [[[ds1|e] c2]|] eqn:E1;
    try discriminate.
  inversion E; subst. destruct (IH _ _ _ _ E1) as [Hl Hs].
  cbn [length skipn]. split; [now rewrite Hl|exact Hs].
Qed.

(** X17. [generate_data] returns four dictionaries, whatever it is given:
    [zip] stops with the shorter list, so a fifth population and those
    after it are never simulated, and with fewer than four populations
    the dictionaries without one are returned empty. *)
Theorem generate_data_four_populations
    (standard_networks : list (list Graph)) (f : strategy) (h : heap)
    (c : nat) :
  generate_data standard_networks f h c
  = generate_data (firstn 4 standard_networks) f h c
  /\ forall dicts c',
       generate_data standard_networks f h c = Some (Ok dicts, c') ->
       length dicts = 4%nat
       /\ skipn (length standard_networks) dicts
          = repeat [] (4 - length standard_networks).
Proof.
  unfold generate_data. cbv zeta. split.
  - apply (generate_data_zip_truncates f standard_networks
             [[]; []; []; []] h c).
  - intros dicts c' E. apply generate_data_zip_shape in E.
    destruct E as [Hl Hs]. split; [exact Hl|]. rewrite Hs.
    destruct standard_networks as [|p1 [|p2 [|p3 [|p4 [|p5 l]]]]];
      reflexivity.
Qed.

Variable random : nat -> Q.

Lemma budget_mappings_bounds (m : Z * Z) (g : Graph) :
  In m budget_mappings ->
  (passes g (inject_Z (snd m)) <= length (nodes g) + 190)%nat
  /\ (3 <= calc_direct_attack_budget (inject_Z (snd m)) <= 5)%Z.
Proof.
  unfold budget_mappings. intro H.
  repeat (destruct H as [<-|H];
          [split;
           [unfold passes; cbn [snd]; apply Nat.add_le_mono_l;
            apply Nat.leb_le; vm_compute; reflexivity
           |cbn [snd]; vm_compute; split; discriminate]|]).
  destruct H.
Qed.

Lemma budget_mappings_distinct : NoDup budget_mappings.
Proof.
  unfold budget_mappings.
  repeat (constructor; [simpl; intuition discriminate|]). constructor.
Qed.

Lemma combine_keys (A B : Type) (l : list A) (vs : list B) :
  length vs = length l -> map fst (combine l vs) = l.
Proof.
  revert vs. induction l as [|x l IH]; intros [|v vs] H; simpl in *;
    try discriminate; trivial.
  f_equal. apply IH. lia.
Qed.

Lemma combine_values (A B : Type) (P : B -> Prop) (l : list A)
    (vs : list B) :
  Forall P vs -> Forall (fun kv => P (snd kv)) (combine l vs).
Proof.
  intro H. revert l. induction H as [|v vs Hv H IH]; intros [|x l]; simpl;
    constructor; auto.
Qed.

Lemma generate_data_mappings_cases (fuel : nat) (graphs : list Graph)
    (h : heap) (mappings : list (Z * Z)) (d : dict) (c : nat) :
  Forall (fun g => (length (nodes g) + 190 <= fuel)%nat) graphs ->
  incl mappings budget_mappings -> NoDup mappings ->
  (forall m, In m mappings -> ~ In m (map fst d)) ->
  exists res c',
    generate_data_mappings graphs (deg_deg_trial random fuel) h mappings
      d c = Some (res, c')
    /\ match res with
       | Ok d' =>
           Forall
             (fun m =>
                Forall
                  (fun g =>
                     ~ short (calc_direct_attack_budget
                                (inject_Z (snd m))) g)
                  graphs)
             mappings
           /\ exists vs,
                d' = d ++ combine mappings vs
                /\ length vs = length mappings
                /\ Forall (infiltration graphs) vs
       | Raise e =>
           e = IndexError
           /\ Exists
                (fun m =>
                   Exists
                     (short (calc_direct_attack_budget (inject_Z (snd m))))
                     graphs)
                mappings
       end.
Proof.
  intros Hf. revert d c.
  induction mappings as [|[db ab] mappings IH]; intros d c Hin Hnd Hfresh.
  - exists (Ok d), c. split; [reflexivity|]. split; [constructor|].
    exists []. rewrite app_nil_r. repeat split. constructor.
  - cbn [generate_data_mappings].
    assert (Hm : In (db, ab) budget_mappings) by (apply Hin; now left).
    pose proof (generate_initial_networks_cases graphs db (inject_Z ab) h)
      as Hg.
    destruct (generate_initial_networks graphs db (inject_Z ab) h)
      as [h_copy|e].
    2:{ exists (Raise e), c. split; [reflexivity|].
        destruct Hg as [-> Hg]. split; trivial. now apply Exists_cons_hd. }
    assert (Hp : Forall (fun g => (passes g (inject_Z ab) <= fuel)%nat)
                   graphs).
    { eapply Forall_impl; [|exact Hf]. intros g Hgf. cbv beta in Hgf.
      destruct (budget_mappings_bounds g Hm) as [Hb _].
      cbn [snd] in Hb. lia. }
    destruct (@monte_carlo_cases random fuel graphs (inject_Z ab)
                {| objs := h_copy; calls := c |} Hp)
      as (res & s1 & E & Hres).
    rewrite E. destruct res as [data|e].
    2:{ exfalso. destruct Hres as [_ Hex]. apply Exists_exists in Hex.
        destruct Hex as (g & Hgin & Hempty). rewrite Forall_forall in Hg.
        apply (Hg g Hgin). unfold short, number_of_nodes. rewrite Hempty.
        destruct (budget_mappings_bounds g Hm) as [_ Hb].
        cbn [snd length] in *. lia. }
    destruct Hres as [Hdata _].
    rewrite dict_set_fresh by (apply Hfresh; now left).
    inversion Hnd as [|m l Hnotin Hnd']; subst.
    destruct (IH (d ++ [((db, ab), data)]) (calls s1)) as (res & c' & E' & Hres').
    + intros m Hmin. apply Hin. now right.
    + exact Hnd'.
    + intros m Hmin. rewrite map_app, in_app_iff. cbn [map fst In].
      intros [H|[H|[]]].
      * apply (Hfresh m); [now right|exact H].
      * subst. tauto.
    + exists res, c'. split; [exact E'|]. destruct res as [d'|e].
      * destruct Hres' as (Hall & vs & Ed & Hl & Hvs). split.
        { constructor; trivial. }
        exists (data :: vs). cbn [combine length]. rewrite Ed, <- app_assoc.
        repeat split; trivial; [now rewrite Hl|now constructor].
      * destruct Hres' as [-> Hex]. split; trivial. now apply Exists_cons_tl.
Qed.

Lemma generate_data_zip_cases (fuel : nat) (sn : list (list Graph))
    (ds : list dict) (h : heap) (c : nat) :
  Forall (Forall (fun g => (length (nodes g) + 190 <= fuel)%nat))
    (firstn (length ds) sn) ->
  Forall (fun d => d = []) ds ->
  exists res c',
    generate_data_zip sn ds (deg_deg_trial random fuel) h c
    = Some (res, c')
    /\ match res with
       | Ok ds' =>
           Forall (Forall (fun g => (5 <= length (nodes g))%nat))
             (firstn (length ds) sn)
           /\ Forall2 complete (firstn (length ds) sn)
                (firstn (length sn) ds')
       | Raise e =>
           e = IndexError
           /\ Exists (Exists (fun g => (length (nodes g) < 5)%nat))
                (firstn (length ds) sn)
       end.
Proof.
  revert ds c. induction sn as [|p sn IH]; intros [|d ds] c Hf He;
    try (eexists; eexists; split; [reflexivity|];
         cbn [length firstn]; split; constructor).
  cbn [length firstn] in *. cbn [generate_data_zip].
  inversion Hf as [|p' l' Hfp Hf']; subst.
  inversion He as [|d' l'' Hd He']; subst.
  destruct (@generate_data_mappings_cases fuel p h budget_mappings [] c
              Hfp (incl_refl _) budget_mappings_distinct)
    as (res & c1 & E & Hres); [intros m _ []|].
  rewrite E. destruct res as [d1|e].
  - destruct Hres as (Hall & vs & Ed & Hl & Hvs). cbn [app] in Ed.
    assert (H5 : Forall (fun g => (5 <= length (nodes g))%nat) p).
    { rewrite Forall_forall in Hall.
      assert (Hm : In (60, 100)%Z budget_mappings)
        by (unfold budget_mappings; simpl; tauto).
      specialize (Hall _ Hm). eapply Forall_impl; [|exact Hall].
      intros g Hg. cbv beta in Hg. unfold short, number_of_nodes in Hg.
      cbn [snd] in Hg.
      change (calc_direct_attack_budget (inject_Z 100)) with 5%Z in Hg.
      lia. }
    assert (Hc : complete p d1).
    { subst d1. split; [now apply combine_keys|].
      now apply combine_values. }
    destruct (IH ds c1 Hf' He') as (res & c2 & E' & Hres'). rewrite E'.
    destruct res as [ds1|e].
    + eexists. eexists. split; [reflexivity|].
      destruct Hres' as [Hall' Hc']. split; constructor; trivial.
    + eexists. eexists. split; [reflexivity|].
      destruct Hres' as [-> Hex]. split; trivial. now apply Exists_cons_tl.
  - eexists. eexists. split; [reflexivity|].
    destruct Hres as [-> Hex]. split; trivial. apply Exists_cons_hd.
    apply Exists_exists in Hex. destruct Hex as (m & Hm & Hex).
    eapply Exists_impl; [|exact Hex]. intros g Hg.
    destruct (budget_mappings_bounds g Hm) as [_ Hb].
    unfold short, number_of_nodes in Hg. lia.
Qed.

(** X18. [generate_data] with [deg_deg_trial] needs five nodes in every
    graph: the budget mappings with attack budget 100 flag
    [ceil(0.05 * 100) = 5] nodes.  When every graph of the first four
    populations has at least five nodes, it returns four dictionaries,
    and the dictionary of each population holds the eight budget mappings
    in the order of [budget_mappings], each with one fraction between 0
    and 1 for every graph of the population; when some graph has fewer
    than five nodes, it raises [IndexError] and returns nothing. *)
Theorem generate_data_needs_five_nodes (fuel : nat)
    (standard_networks : list (list Graph)) (h : heap) (c : nat) :
  Forall (Forall (fun g => (length (nodes g) + 190 <= fuel)%nat))
    (firstn 4 standard_networks) ->
  (Forall (Forall (fun g => (5 <= length (nodes g))%nat))
     (firstn 4 standard_networks) ->
   exists dicts c',
     generate_data standard_networks (deg_deg_trial random fuel) h c
     = Some (Ok dicts, c')
     /\ length dicts = 4%nat
     /\ Forall2 complete (firstn 4 standard_networks)
          (firstn (length standard_networks) dicts))
  /\ (Exists (Exists (fun g => (length (nodes g) < 5)%nat))
        (firstn 4 standard_networks) ->
      exists c',
        generate_data standard_networks (deg_deg_trial random fuel) h c
        = Some (Raise IndexError, c')).
Proof.
  intro Hf. unfold generate_data. cbv zeta.
  destruct (@generate_data_zip_cases fuel standard_networks
              [[]; []; []; []] h c Hf)
    as (res & c' & E & Hres); [repeat constructor|].
  rewrite E. destruct res as [dicts|e].
  - destruct Hres as [Hall Hc]. split.
    + intros _. exists dicts, c'. split; [reflexivity|]. split; trivial.
      now apply generate_data_zip_shape in E.
    + intro Hex. exfalso. cbn [length] in Hall.
      apply Exists_exists in Hex. destruct Hex as (p & Hp & Hex).
      rewrite Forall_forall in Hall. specialize (Hall p Hp).
      apply Exists_exists in Hex. destruct Hex as (g & Hg & Hlt).
      rewrite Forall_forall in Hall. specialize (Hall g Hg). lia.
  - destruct Hres as [-> Hex]. split.
    + intro Hall. exfalso. cbn [length] in Hex.
      apply Exists_exists in Hex. destruct Hex as (p & Hp & Hex).
      rewrite Forall_forall in Hall. specialize (Hall p Hp).
      apply Exists_exists in Hex. destruct Hex as (g & Hg & Hlt).
      rewrite Forall_forall in Hall. specialize (Hall g Hg). lia.
    + intros _. now exists c'.
Qed.

End Data.

(** ** The statements above on the small networks *)

Section MoreWitnesses.
Import NetGen Sim Driver Examples MoreExamples.

Lemma path3_trial_runs :
  deg_deg_trial always_hit 100 path3 40 path3_start
  = Some (frac_compromised path3 (objs path3_end), path3_end).
Proof.
  rewrite trial_trace_agrees, path3_trace_runs. cbn [option_map].
  unfold path3_end. reflexivity.
Qed.

Lemma cycle5_nodes_distinct : NoDup (nodes cycle5).
Proof.
  repeat constructor; simpl; intuition discriminate.
Defined.

Lemma cycle5_untouched : untouched cycle5 cycle5_heap.
Proof. intros r _. repeat split. Defined.

Lemma cycle5_allocation :
  generate_initial_network cycle5 60 100 cycle5_heap
  = Ok (allocated cycle5 60 100 cycle5_heap).
Proof. vm_compute. reflexivity. Defined.

Lemma assign_attack_values_flags_top_witness :
  (calc_direct_attack_budget 40
   <= Z.of_nat (length (sort_by_centrality path3 path3_heap)))%Z
  /\ exists h',
       assign_attack_values (sort_by_centrality path3 path3_heap) 40
         path3_heap = Ok h'
       /\ forall r,
            In r (firstn (Z.to_nat (calc_direct_attack_budget 40))
                    (sort_by_centrality path3 path3_heap)) ->
            is_attacked (h' r) = true /\ attack_value (h' r) = 1%Z.
Proof.
  assert (Hk : (calc_direct_attack_budget 40
                <= Z.of_nat (length (sort_by_centrality path3
                                       path3_heap)))%Z)
    by (vm_compute; discriminate).
  split; [exact Hk|].
  destruct (@assign_attack_values_flags_top
              (sort_by_centrality path3 path3_heap) 40 path3_heap Hk)
    as (h' & E & Hin & _).
  exists h'. split; [exact E|exact Hin].
Defined.

Lemma calc_direct_attack_budget_monotone_witness :
  (0 <= 60 <= 100)%Z /\ (100 < 2 ^ 53)%Z
  /\ exists k k' : Z,
       Binary64.calc_direct_attack_budget 60 = Some k
       /\ Binary64.calc_direct_attack_budget 100 = Some k'
       /\ (k <= k')%Z.
Proof.
  assert (H : (0 <= 60 <= 100)%Z) by lia.
  assert (H' : (100 < 2 ^ 53)%Z) by reflexivity.
  split; [exact H|]. split; [exact H'|].
  destruct (@calc_direct_attack_budget_monotone 60 100 H H')
    as (k & k' & E & E' & Hle & _).
  exists k, k'. split; [exact E|]. split; [exact E'|exact Hle].
Defined.

Lemma deg_deg_trial_writes_flags_only_witness :
  deg_deg_trial always_hit 100 path3 40 path3_start
  = Some (frac_compromised path3 (objs path3_end), path3_end)
  /\ same_but_flags (objs path3_start) (objs path3_end).
Proof.
  split; [exact path3_trial_runs|].
  exact (@deg_deg_trial_writes_flags_only always_hit path3 100 40
           path3_start path3_end
           (frac_compromised path3 (objs path3_end)) path3_trial_runs).
Defined.

Lemma deg_deg_trial_empty_graph_witness :
  nodes no_nodes = []
  /\ deg_deg_trial always_hit 0 no_nodes 60 one_node_start
     = Some (Raise ZeroDivisionError, one_node_start).
Proof.
  assert (H : nodes no_nodes = []) by reflexivity.
  split; [exact H|].
  exact (@deg_deg_trial_empty_graph always_hit no_nodes 0 60
           one_node_start H).
Defined.

Lemma deg_deg_trial_returns_fraction_witness :
  nodes path3 <> [] /\ (passes path3 40 <= 100)%nat
  /\ exists q s',
       deg_deg_trial always_hit 100 path3 40 path3_start = Some (Ok q, s')
       /\ fraction q.
Proof.
  assert (Hn : nodes path3 <> []) by discriminate.
  assert (Hf : (passes path3 40 <= 100)%nat)
    by (apply Nat.leb_le; vm_compute; reflexivity).
  split; [exact Hn|]. split; [exact Hf|].
  destruct (@deg_deg_trial_returns_fraction always_hit path3 100 40
              path3_start Hn Hf) as (q & s' & E & Hq & _).
  exists q, s'. split; [exact E|exact Hq].
Defined.

Lemma indirect_attacks_bounded_by_ledger_witness :
  trial_trace always_hit 100 path3 40 path3_start = Some path3_trace
  /\ (length (filter is_indirect path3_trace)
      <= Z.to_nat
           (Qceiling (2 * (40 - inject_Z (calc_direct_attack_budget 40)))))%nat.
Proof.
  split; [exact path3_trace_runs|].
  exact (@indirect_attacks_bounded_by_ledger always_hit path3 100 40
           path3_start path3_trace path3_trace_runs).
Defined.


Lemma compromised_nodes_were_attacked_witness :
  NoDup (nodes path3) /\ uncompromised (objs path3_start)
  /\ deg_deg_trial always_hit 100 path3 40 path3_start
     = Some (frac_compromised path3 (objs path3_end), path3_end)
  /\ (num_compromised path3 (objs path3_end)
      <= length (filter (fun node => is_attacked (objs path3_end node))
                   (nodes path3)))%nat.
Proof.
  split; [exact path3_nodes_distinct|].
  split; [exact path3_start_uncompromised|].
  split; [exact path3_trial_runs|].
  exact (proj2 (@compromised_nodes_were_attacked always_hit path3 100 40
                  path3_start path3_end
                  (frac_compromised path3 (objs path3_end))
                  path3_nodes_distinct path3_start_uncompromised
                  path3_trial_runs)).
Defined.

Lemma direct_targets_are_defended_witness :
  NoDup (nodes cycle5) /\ untouched cycle5 cycle5_heap
  /\ (calc_direct_attack_budget 100 <= 60)%Z
  /\ generate_initial_network cycle5 60 100 cycle5_heap
     = Ok (allocated cycle5 60 100 cycle5_heap)
  /\ length (filter
               (fun node =>
                  is_attacked (allocated cycle5 60 100 cycle5_heap node))
               (nodes cycle5))
     = Z.to_nat (calc_direct_attack_budget 100).
Proof.
  assert (Hb : (calc_direct_attack_budget 100 <= 60)%Z)
    by (vm_compute; discriminate).
  split; [exact cycle5_nodes_distinct|].
  split; [exact cycle5_untouched|].
  split; [exact Hb|]. split; [exact cycle5_allocation|].
  exact (proj1 (proj2 (@direct_targets_are_defended cycle5 60 100
                         cycle5_heap (allocated cycle5 60 100 cycle5_heap)
                         cycle5_nodes_distinct cycle5_untouched Hb
                         cycle5_allocation))).
Defined.

Lemma monte_carlo_one_fraction_per_graph_witness :
  Forall (fun g => (passes g 20 <= 100)%nat) [path3; one_node]
  /\ exists data s',
       monte_carlo [path3; one_node] (deg_deg_trial always_hit 100) 20
         path3_start = Some (Ok data, s')
       /\ length data = 2%nat /\ Forall fraction data.
Proof.
  assert (Hf : Forall (fun g => (passes g 20 <= 100)%nat)
                 [path3; one_node])
    by (repeat constructor; apply Nat.leb_le; vm_compute; reflexivity).
  assert (Hn : Forall (fun g => nodes g <> []) [path3; one_node])
    by (repeat constructor; discriminate).
  split; [exact Hf|].
  exact (proj1 (@monte_carlo_one_fraction_per_graph always_hit 100
                  [path3; one_node] 20 path3_start Hf) Hn).
Defined.

Lemma generate_data_needs_five_nodes_witness :
  Forall (Forall (fun g => (length (nodes g) + 190 <= 200)%nat))
    (firstn 4 [[cycle5]])
  /\ exists dicts c',
       generate_data [[cycle5]] (deg_deg_trial always_hit 200) cycle5_heap 0
       = Some (Ok dicts, c')
       /\ length dicts = 4%nat
       /\ Forall2 complete (firstn 4 [[cycle5]])
            (firstn (length [[cycle5]]) dicts).
Proof.
  assert (Hf : Forall (Forall (fun g =>
                                 (length (nodes g) + 190 <= 200)%nat))
                 (firstn 4 [[cycle5]]))
    by (repeat constructor; simpl; lia).
  assert (H5 : Forall (Forall (fun g => (5 <= length (nodes g))%nat))
                 (firstn 4 [[cycle5]]))
    by (repeat constructor).
  split; [exact Hf|].
  exact (proj1 (@generate_data_needs_five_nodes always_hit 200
                  [[cycle5]] cycle5_heap 0 Hf) H5).
Defined.

End MoreWitnesses.
